(** * Consistent hashing ring ([hashring.py]): a shallow embedding and its properties

    The development follows the Python class [HashRing]:
    - [MD5] is the digest behind [md5_constructor] (RFC 1321), on bytes;
    - a Python [str] is a [pystr], the list of its code points, and
      [key.encode('utf8')] is [encode_utf8], which raises on a surrogate;
      a Rocq [string] holds bytes: the encoded form of a key, or the text of
      a digest, on which [<=] is the bytewise lexicographic order
      [String.le]; [gen_key] and the methods named after the source work on
      a key given by its UTF-8 bytes, [gen_key_str], [get_node_pos_str] and
      [get_node_str] on the Python [str] itself;
    - [self.ring] is a [gmap string Node], [self._sorted_keys] a [list string];
    - a method that can raise returns an [outcome] carrying the exception
      and the state the object is left in. *)

From Stdlib Require Import ZArith Ascii DecimalString.
From Stdlib Require String.
From stdpp Require Import gmap strings list sorting.

Local Open Scope Z_scope.

(** ** MD5 (the algorithm of [hashlib.md5]) *)

Module MD5.

Definition mask32 (x : Z) : Z := Z.land x 0xffffffff.

Definition lnot32 (x : Z) : Z := Z.lxor x 0xffffffff.

Definition rotl32 (x c : Z) : Z :=
  mask32 (Z.lor (Z.shiftl x c) (Z.shiftr x (32 - c))).

(** Per-round shift amounts. *)
Definition shifts : list Z :=
  [ 7; 12; 17; 22;  7; 12; 17; 22;  7; 12; 17; 22;  7; 12; 17; 22;
    5;  9; 14; 20;  5;  9; 14; 20;  5;  9; 14; 20;  5;  9; 14; 20;
    4; 11; 16; 23;  4; 11; 16; 23;  4; 11; 16; 23;  4; 11; 16; 23;
    6; 10; 15; 21;  6; 10; 15; 21;  6; 10; 15; 21;  6; 10; 15; 21 ].

(** [K[i] = floor(2^32 * abs(sin(i + 1)))]. *)
Definition K : list Z :=
  [ 0xd76aa478; 0xe8c7b756; 0x242070db; 0xc1bdceee;
    0xf57c0faf; 0x4787c62a; 0xa8304613; 0xfd469501;
    0x698098d8; 0x8b44f7af; 0xffff5bb1; 0x895cd7be;
    0x6b901122; 0xfd987193; 0xa679438e; 0x49b40821;
    0xf61e2562; 0xc040b340; 0x265e5a51; 0xe9b6c7aa;
    0xd62f105d; 0x02441453; 0xd8a1e681; 0xe7d3fbc8;
    0x21e1cde6; 0xc33707d6; 0xf4d50d87; 0x455a14ed;
    0xa9e3e905; 0xfcefa3f8; 0x676f02d9; 0x8d2a4c8a;
    0xfffa3942; 0x8771f681; 0x6d9d6122; 0xfde5380c;
    0xa4beea44; 0x4bdecfa9; 0xf6bb4b60; 0xbebfbc70;
    0x289b7ec6; 0xeaa127fa; 0xd4ef3085; 0x04881d05;
    0xd9d4d039; 0xe6db99e5; 0x1fa27cf8; 0xc4ac5665;
    0xf4292244; 0x432aff97; 0xab9423a7; 0xfc93a039;
    0x655b59c3; 0x8f0ccc92; 0xffeff47d; 0x85845dd1;
    0x6fa87e4f; 0xfe2ce6e0; 0xa3014314; 0x4e0811a1;
    0xf7537e82; 0xbd3af235; 0x2ad7d2bb; 0xeb86d391 ].

(** The [n] low bytes of [x], least significant first. *)
Fixpoint le_bytes (n : nat) (x : Z) : list Z :=
  match n with
  | O => []
  | S n' => Z.land x 0xff :: le_bytes n' (Z.shiftr x 8)
  end.

(** Little-endian value of a list of bytes. *)
Fixpoint le_word (bs : list Z) : Z :=
  match bs with
  | [] => 0
  | b :: bs' => Z.lor b (Z.shiftl (le_word bs') 8)
  end.

(** Message, then [0x80], zeros up to 56 modulo 64, and the bit length on
    64 bits. *)
Definition pad (msg : list Z) : list Z :=
  let len := Z.of_nat (length msg) in
  msg ++ [0x80] ++ replicate (Z.to_nat ((55 - len) mod 64)) 0
      ++ le_bytes 8 (8 * len).

(** The sixteen 32-bit words of block [j]. *)
Definition block_words (padded : list Z) (j : nat) : list Z :=
  let blk := take 64 (drop (64 * j) padded) in
  (λ w : nat, le_word (take 4 (drop (4 * w) blk))) <$> seq 0 16.

Definition state : Type := Z * Z * Z * Z.

Definition init : state := (0x67452301, 0xefcdab89, 0x98badcfe, 0x10325476).

Definition step (M : list Z) (st : state) (i : nat) : state :=
  let '(a, b, c, d) := st in
  let '(f, g) :=
    if (i <? 16)%nat then
      (Z.lor (Z.land b c) (Z.land (lnot32 b) d), i)
    else if (i <? 32)%nat then
      (Z.lor (Z.land d b) (Z.land (lnot32 d) c), ((5 * i + 1) mod 16)%nat)
    else if (i <? 48)%nat then
      (Z.lxor (Z.lxor b c) d, ((3 * i + 5) mod 16)%nat)
    else
      (Z.lxor c (Z.lor b (lnot32 d)), ((7 * i) mod 16)%nat) in
  let f' := mask32 (f + a + nth i K 0 + nth g M 0) in
  (d, mask32 (b + rotl32 f' (nth i shifts 0)), b, c).

Definition compress (padded : list Z) (st : state) (j : nat) : state :=
  let '(a0, b0, c0, d0) := st in
  let '(a, b, c, d) := fold_left (step (block_words padded j)) (seq 0 64) st in
  (mask32 (a0 + a), mask32 (b0 + b), mask32 (c0 + c), mask32 (d0 + d)).

(** The 16 bytes returned by [digest()]. *)
Definition digest (msg : list Z) : list Z :=
  let padded := pad msg in
  let '(a, b, c, d) :=
    fold_left (compress padded) (seq 0 (length padded / 64)) init in
  le_bytes 4 a ++ le_bytes 4 b ++ le_bytes 4 c ++ le_bytes 4 d.

Definition hex_digit (n : Z) : ascii :=
  nth (Z.to_nat n) (String.list_ascii_of_string "0123456789abcdef") "0"%char.

Fixpoint hex_of_bytes (bs : list Z) : string :=
  match bs with
  | [] => EmptyString
  | b :: bs' =>
      String (hex_digit (Z.shiftr b 4))
        (String (hex_digit (Z.land b 0xf)) (hex_of_bytes bs'))
  end.

Definition bytes_of_string (s : string) : list Z :=
  (λ c, Z.of_N (N_of_ascii c)) <$> String.list_ascii_of_string s.

(** [m = md5(); m.update(s); m.hexdigest()]. *)
Definition hexdigest (s : string) : string :=
  hex_of_bytes (digest (bytes_of_string s)).

End MD5.


(** ** The ring *)

(** Exceptions the methods can raise. *)
Inductive exn : Type :=
| KeyError (k : string)     (* [del d[k]] or [d[k]] on a missing key *)
| ValueError (k : string)   (* [list.remove(k)] on a missing element *)
| IndexError                (* [l[0]] on an empty list *)
| UnicodeEncodeError.       (* [s.encode('utf8')] on a surrogate code point *)

Inductive result (A : Type) : Type :=
| Ok (a : A)
| Err (e : exn).
Arguments Ok {A} a.
Arguments Err {A} e.

(** [%s] of a Python int. *)
Definition str_int (i : Z) : string := NilZero.string_of_int (Z.to_int i).

(** [range(0, n)]. *)
Definition range0 (n : Z) : list Z := Z.of_nat <$> seq 0 (Z.to_nat n).

(** [list.remove(x)]: drops the first occurrence, [None] when there is none
    (Python raises [ValueError]). *)
Fixpoint list_remove (x : string) (l : list string) : option (list string) :=
  match l with
  | [] => None
  | y :: l' => if decide (x = y) then Some l' else (y ::.) <$> list_remove x l'
  end.

(** [gen_key]: the hexadecimal text of the MD5 digest of the key. *)
Definition gen_key (key : string) : string := MD5.hexdigest key.

(** *** Python strings and their UTF-8 encoding *)

(** A Python [str]: its code points, each in [0 .. 0x10FFFF]. *)
Definition pystr : Type := list Z.

Definition is_surrogate (c : Z) : bool := (0xD800 <=? c) && (c <=? 0xDFFF).

Definition has_surrogate (s : pystr) : bool := existsb is_surrogate s.

(** The UTF-8 bytes of one code point. *)
Definition utf8_bytes (c : Z) : list Z :=
  if c <? 0x80 then [c]
  else if c <? 0x800 then
    [Z.lor 0xC0 (Z.shiftr c 6); Z.lor 0x80 (Z.land c 0x3F)]
  else if c <? 0x10000 then
    [Z.lor 0xE0 (Z.shiftr c 12); Z.lor 0x80 (Z.land (Z.shiftr c 6) 0x3F);
     Z.lor 0x80 (Z.land c 0x3F)]
  else
    [Z.lor 0xF0 (Z.shiftr c 18); Z.lor 0x80 (Z.land (Z.shiftr c 12) 0x3F);
     Z.lor 0x80 (Z.land (Z.shiftr c 6) 0x3F); Z.lor 0x80 (Z.land c 0x3F)].

Definition string_of_bytes (bs : list Z) : string :=
  String.string_of_list_ascii ((λ b, ascii_of_N (Z.to_N b)) <$> bs).

(** [s.encode('utf8')]: the strict codec refuses every surrogate. *)
Definition encode_utf8 (s : pystr) : result string :=
  if has_surrogate s then Err UnicodeEncodeError
  else Ok (string_of_bytes (s ≫= utf8_bytes)).

(** [gen_key] on a Python [str]: [m.update(key.encode('utf8'))], then the
    hexadecimal text of the digest. *)
Definition gen_key_str (key : pystr) : result string :=
  match encode_utf8 key with
  | Ok bytes => Ok (gen_key bytes)
  | Err e => Err e
  end.

(** The integer a digest denotes (its bytes read big-endian, as the
    hexadecimal text is written), to compare the order of the texts with. *)
Fixpoint be_value (bs : list Z) : Z :=
  match bs with
  | [] => 0
  | b :: bs' => b * 256 ^ Z.of_nat (length bs') + be_value bs'
  end.

Definition is_byte (b : Z) : Prop := 0 ≤ b < 256.

Definition digest_value (key : string) : Z :=
  be_value (MD5.digest (MD5.bytes_of_string key)).

Section HashRing.

(** Nodes are objects with a [__str__] representation. *)
Context {Node : Type} `{EqDecision Node}.
Variable str : Node → string.

Record HashRing : Type := mkHashRing {
  replicas : Z;
  ring : gmap string Node;
  _sorted_keys : list string
}.

(** ['%s:%s' % (node, i)], hashed. *)
Definition replica_key (node : Node) (i : Z) : string :=
  gen_key (str node +:+ ":" +:+ str_int i).

(** One iteration of the loop of [add_node]. *)
Definition add_point (node : Node) (r : HashRing) (i : Z) : HashRing :=
  let key := replica_key node i in
  mkHashRing (replicas r) (<[key := node]> (ring r)) (_sorted_keys r ++ [key]).

Definition add_node (r : HashRing) (node : Node) : HashRing :=
  let r' := fold_left (add_point node) (range0 (replicas r)) r in
  mkHashRing (replicas r') (ring r') (merge_sort String.le (_sorted_keys r')).

(** [HashRing(nodes, replicas)]; [nodes=None] is [None]. *)
Definition init (nodes : option (list Node)) (replicas : Z) : HashRing :=
  let self := mkHashRing replicas ∅ [] in
  match nodes with
  | None | Some [] => self
  | Some ns => fold_left add_node ns self
  end.

(** How a mutating method ends: normally, or by an exception, with the
    object as it is at that point. *)
Inductive outcome : Type :=
| Returned (r : HashRing)
| Raised (e : exn) (r : HashRing).

(** The loop of [remove_node] over the remaining indices. *)
Fixpoint remove_points (node : Node) (idxs : list Z) (r : HashRing) : outcome :=
  match idxs with
  | [] => Returned r
  | i :: idxs' =>
      let key := replica_key node i in
      match ring r !! key with
      | None => Raised (KeyError key) r
      | Some _ =>
          let r1 := mkHashRing (replicas r) (delete key (ring r)) (_sorted_keys r) in
          match list_remove key (_sorted_keys r1) with
          | None => Raised (ValueError key) r1
          | Some l => remove_points node idxs' (mkHashRing (replicas r1) (ring r1) l)
          end
      end
  end.

Definition remove_node (r : HashRing) (node : Node) : outcome :=
  remove_points node (range0 (replicas r)) r.

(** The ring a method leaves behind, and whether it returned normally. *)
Definition state_of (o : outcome) : HashRing :=
  match o with
  | Returned r | Raised _ r => r
  end.

Definition returned (o : outcome) : bool :=
  match o with
  | Returned _ => true
  | Raised _ _ => false
  end.


(** [d[k]]. *)
Definition getitem (d : gmap string Node) (k : string) : result Node :=
  match d !! k with
  | Some v => Ok v
  | None => Err (KeyError k)
  end.

(** The [for i in range(0, len(nodes))] loop of [get_node_pos], from index
    [i] on; [None] when the loop ends without returning. *)
Fixpoint scan (d : gmap string Node) (key : string) (nodes : list string)
    (i : nat) : option (result (option Node * option nat)) :=
  match nodes with
  | [] => None
  | node :: rest =>
      if decide (String.le key node)
      then Some (match getitem d node with
                 | Ok v => Ok (Some v, Some i)
                 | Err e => Err e
                 end)
      else scan d key rest (S i)
  end.

(** [None] in a component is Python's [None]. *)
Definition get_node_pos (r : HashRing) (string_key : string)
    : result (option Node * option nat) :=
  if decide (ring r = ∅) then Ok (None, None)
  else
    let key := gen_key string_key in
    let nodes := _sorted_keys r in
    match scan (ring r) key nodes 0 with
    | Some res => res
    | None =>
        match nodes with
        | [] => Err IndexError
        | n0 :: _ =>
            match getitem (ring r) n0 with
            | Ok v => Ok (Some v, Some 0%nat)
            | Err e => Err e
            end
        end
    end.

Definition get_node (r : HashRing) (string_key : string) : result (option Node) :=
  match get_node_pos r string_key with
  | Ok p => Ok (fst p)
  | Err e => Err e
  end.

(** [get_node_pos] and [get_node] on a Python [str]: the ring is tested
    first, then the key is hashed, which can raise, then the points are
    scanned. *)
Definition get_node_pos_str (r : HashRing) (string_key : pystr)
    : result (option Node * option nat) :=
  if decide (ring r = ∅) then Ok (None, None)
  else
    match gen_key_str string_key with
    | Err e => Err e
    | Ok key =>
        let nodes := _sorted_keys r in
        match scan (ring r) key nodes 0 with
        | Some res => res
        | None =>
            match nodes with
            | [] => Err IndexError
            | n0 :: _ =>
                match getitem (ring r) n0 with
                | Ok v => Ok (Some v, Some 0%nat)
                | Err e => Err e
                end
            end
        end
    end.

Definition get_node_str (r : HashRing) (string_key : pystr) : result (option Node) :=
  match get_node_pos_str r string_key with
  | Ok p => Ok (fst p)
  | Err e => Err e
  end.

(** *** The generator [get_nodes]

    A generator is a cursor into its body; [next] runs it to the next
    [yield].  The ring is an object shared with the caller: every step
    reads it as it is when the step runs. *)

(** What is yielded: the pair [(None, None)], or a node. *)
Inductive item : Type :=
| Sentinel
| Owner (n : Node).

Inductive cursor : Type :=
| AtStart                       (* created, not started *)
| AtLookup                      (* before [node, pos = self.get_node_pos(..)] *)
| InSlice (rest : list string)  (* in [for key in self._sorted_keys[pos:]] *)
| InCycle (i : nat)             (* in [while True: for key in self._sorted_keys] *)
| Finished.                     (* left by an exception *)

Inductive step_result : Type :=
| Yield (x : item) (c : cursor)
| Silent (c : cursor)
| Throw (e : exn)
| StopIteration.

(** [l[pos:]]; [l[None:]] is the whole list. *)
Definition slice_from (pos : option nat) (l : list string) : list string :=
  match pos with
  | None => l
  | Some i => drop i l
  end.

Definition get_nodes_step (r : HashRing) (string_key : string) (c : cursor)
    : step_result :=
  match c with
  | AtStart =>
      if decide (ring r = ∅) then Yield Sentinel AtLookup else Silent AtLookup
  | AtLookup =>
      match get_node_pos r string_key with
      | Ok (_, pos) => Silent (InSlice (slice_from pos (_sorted_keys r)))
      | Err e => Throw e
      end
  | InSlice [] => Silent (InCycle 0)
  | InSlice (key :: rest) =>
      match getitem (ring r) key with
      | Ok v => Yield (Owner v) (InSlice rest)
      | Err e => Throw e
      end
  | InCycle i =>
      match _sorted_keys r !! i with
      | Some key =>
          match getitem (ring r) key with
          | Ok v => Yield (Owner v) (InCycle (S i))
          | Err e => Throw e
          end
      | None => Silent (InCycle 0)
      end
  | Finished => StopIteration
  end.

(** [next(g)] with a bound on the number of steps taken without yielding;
    [None] when the bound is reached. *)
Fixpoint next (fuel : nat) (r : HashRing) (string_key : string) (c : cursor)
    : option step_result :=
  match fuel with
  | O => None
  | S fuel' =>
      match get_nodes_step r string_key c with
      | Silent c' => next fuel' r string_key c'
      | res => Some res
      end
  end.

(** *** Predicates of the specification *)

(** The replica points of [node]: [gen_key('%s:%s' % (node, i))] for [i]
    in [range(0, replicas)]. *)
Definition replica_keys (r : HashRing) (node : Node) : list string :=
  replica_key node <$> range0 (replicas r).

(** [_sorted_keys] is exactly the ascending, duplicate-free list of the
    keys of [ring]. *)
Definition keys_in_sync (r : HashRing) : Prop :=
  Sorted String.le (_sorted_keys r) ∧
  NoDup (_sorted_keys r) ∧
  ∀ k, k ∈ _sorted_keys r ↔ is_Some (ring r !! k).

(** [p], at index [i], is the first entry of [l] at or after [h]. *)
Definition first_at_or_after (h : string) (l : list string) (i : nat)
    (p : string) : Prop :=
  l !! i = Some p ∧ String.le h p ∧
  ∀ j q, (j < i)%nat → l !! j = Some q → ¬ String.le h q.

(** The points of [X] are new to the ring and pairwise distinct. *)
Definition fresh (r : HashRing) (X : Node) : Prop :=
  NoDup (replica_keys r X) ∧ ∀ k, k ∈ replica_keys r X → ring r !! k = None.

(** States reached by successful operations. *)
Inductive reachable : HashRing → Prop :=
| reach_init nodes n : reachable (init nodes n)
| reach_add r X : reachable r → reachable (add_node r X)
| reach_remove r X r' :
    reachable r → remove_node r X = Returned r' → reachable r'.

(** The same, where a node is only added when its points are [fresh]. *)
Inductive reachable_fresh : HashRing → Prop :=
| reachf_init n : reachable_fresh (init None n)
| reachf_add r X : reachable_fresh r → fresh r X → reachable_fresh (add_node r X)
| reachf_remove r X r' :
    reachable_fresh r → remove_node r X = Returned r' → reachable_fresh r'.

(** *** Further predicates *)

(** The entry [get_node_pos] selects for the hash [h], with its index: the
    first entry at or after [h], else the first entry of the list. *)
Definition owner_index (h : string) (l : list string) : option (nat * string) :=
  match list_find (String.le h) l with
  | Some ip => Some ip
  | None =>
      match l with
      | [] => None
      | p :: _ => Some (0%nat, p)
      end
  end.

(** Every point of the ring is a replica point of the node it maps to. *)
Definition owner_consistent (r : HashRing) : Prop :=
  ∀ k X, ring r !! k = Some X → k ∈ replica_keys r X.

(** Every entry of [_sorted_keys] is a key of [ring]. *)
Definition no_dangling (r : HashRing) : Prop :=
  ∀ q, q ∈ _sorted_keys r → is_Some (ring r !! q).

(** Every key of [ring] is an entry of [_sorted_keys]. *)
Definition covered (r : HashRing) : Prop :=
  ∀ q, is_Some (ring r !! q) → q ∈ _sorted_keys r.

(** What holds of every ring, in sync or not. *)
Definition ring_inv (r : HashRing) : Prop :=
  owner_consistent r ∧ covered r ∧ Sorted String.le (_sorted_keys r).

(** What holds of a ring built by adding nodes of [S] only. *)
Definition built_from (S : list Node) (r : HashRing) : Prop :=
  no_dangling r ∧ covered r ∧ ∀ q v, ring r !! q = Some v → v ∈ S.

(** The generator stands before the entry of index [p] of [_sorted_keys]:
    in the slice that starts there, or in the cycle at that index. *)
Definition cursor_at (r : HashRing) (p : nat) (c : cursor) : Prop :=
  c = InSlice (drop p (_sorted_keys r)) ∨ c = InCycle p.

(** The item of index [j] (from 0) that a consumer gets from the generator
    at cursor [c], calling [next] on an unchanged ring; every call may take
    [fuel] steps. *)
Fixpoint nth_item (fuel j : nat) (r : HashRing) (string_key : string)
    (c : cursor) : option item :=
  match next fuel r string_key c with
  | Some (Yield x c') =>
      match j with
      | O => Some x
      | S j' => nth_item fuel j' r string_key c'
      end
  | _ => None
  end.

End HashRing.

(** ** Example rings *)

(** [HashRing(['A', 'B'])] and [HashRing(['B', 'A'])]. *)
Definition ring_AB : @HashRing string := init id (Some ["A"; "B"]) 3.
Definition ring_BA : @HashRing string := init id (Some ["B"; "A"]) 3.

(** [HashRing()]. *)
Definition ring_empty : @HashRing string := init id None 3.

(** [HashRing(['A'])]. *)
Definition ring_A : @HashRing string := init id (Some ["A"]) 3.

(** [r = HashRing(['A']); r.add_node('A'); r.remove_node('A')]. *)
Definition ring_A_twice : @HashRing string := add_node id (init id (Some ["A"]) 3) "A".
Definition ring_A_twice_removed : @HashRing string :=
  state_of (remove_node id ring_A_twice "A").

(** [r = HashRing(); r.add_node('A'); r.add_node('B'); r.remove_node('A')]. *)
Definition ring_B_left : @HashRing string :=
  state_of (remove_node id (add_node id (add_node id ring_empty "A") "B") "A").

(** [r = HashRing(['A', 'B']); r.add_node('A'); r.remove_node('A')]: the
    points of ['A'] stay in [_sorted_keys] without being keys of [ring]. *)
Definition ring_AB_dangling : @HashRing string :=
  state_of (remove_node id (add_node id ring_AB "A") "A").

(** [test.py]: the ring of the five servers and the dictionary [weights]. *)
Definition memcache_servers : list string := ["1"; "2"; "3"; "4"; "5"].

Definition test_ring : @HashRing string := init id (Some memcache_servers) 3.

Definition weights : gmap string string :=
  list_to_map
    [ ("1", "{'NAME':'MYSQL','HOST':'192.16.1.21','USER':'ROOT','PASSWORD':'123456','PORT':3306}");
      ("2", "{'NAME':'MYSQL','HOST':'192.16.1.22','USER':'ROOT','PASSWORD':'123456','PORT':3306}");
      ("3", "{'NAME':'MYSQL','HOST':'192.16.1.23','USER':'ROOT','PASSWORD':'123456','PORT':3306}");
      ("4", "{'NAME':'MYSQL','HOST':'192.16.1.24','USER':'ROOT','PASSWORD':'123456','PORT':3306}");
      ("5", "{'NAME':'MYSQL','HOST':'192.16.1.25','USER':'ROOT','PASSWORD':'123456','PORT':3306}") ].

(** ** Properties *)

(** Digests of the test suite of RFC 1321, and of keys used below. *)
Example md5_empty : MD5.hexdigest "" = "d41d8cd98f00b204e9800998ecf8427e".
Proof. vm_compute. reflexivity. Qed.

Example md5_abc : MD5.hexdigest "abc" = "900150983cd24fb0d6963f7d28e17f72".
Proof. vm_compute. reflexivity. Qed.

Example md5_two_blocks :
  MD5.hexdigest
    "12345678901234567890123456789012345678901234567890123456789012345678901234567890"
  = "57edf4a22be3c955ac49da2e2107b67a".
Proof. vm_compute. reflexivity. Qed.

Example md5_alphabet :
  MD5.hexdigest "ABCDEFGHIJKLMNOPQRSTUVWXYZabcdefghijklmnopqrstuvwxyz0123456789"
  = "d174ab98d277d9f5a5611c2c9f419d9f".
Proof. vm_compute. reflexivity. Qed.

Example replica_key_A0 :
  replica_key (Node:=string) id "A" 0 = "57e1e221c0a1aa811bc8d4d8dd6deaa7".
Proof. vm_compute. reflexivity. Qed.

Section Properties.

Context {Node : Type} `{EqDecision Node}.
Variable str : Node → string.

Implicit Types (r : @HashRing Node) (X : Node) (k key : string).

Lemma range0_pos (n : Z) :
  0 < n → range0 n = 0 :: (Z.of_nat <$> seq 1 (Z.to_nat n - 1)).
Proof.
  intros Hn. unfold range0.
  destruct (Z.to_nat n) as [|m] eqn:Hm; [lia|].
  simpl. by rewrite Nat.sub_0_r.
Qed.

Lemma elem_of_range0 (n i : Z) : i ∈ range0 n ↔ 0 ≤ i < n.
Proof.
  unfold range0. rewrite list_elem_of_fmap. split.
  - intros (j & -> & Hj%elem_of_seq). lia.
  - intros Hi. exists (Z.to_nat i). split; [lia|]. apply elem_of_seq. lia.
Qed.

(** C2: on a ring without points, [get_node_pos] returns [(None, None)] and
    [get_node] returns [None]; neither raises. *)
Theorem empty_ring_lookup r k :
  ring r = ∅ → get_node_pos r k = Ok (None, None) ∧ get_node r k = Ok None.
Proof.
  intros Hr. unfold get_node, get_node_pos.
  by rewrite decide_True.
Qed.

(** C9: when the point of replica 0 of [X] is not in the ring (and the ring
    has at least one replica per node), [remove_node] raises [KeyError] at
    its first deletion and leaves the ring as it was. *)
Theorem remove_node_unknown_unchanged r X :
  0 < replicas r →
  ring r !! replica_key str X 0 = None →
  remove_node str r X = Raised (KeyError (replica_key str X 0)) r.
Proof.
  intros Hn Hk. unfold remove_node.
  rewrite range0_pos by done. simpl. by rewrite Hk.
Qed.

Lemma remove_points_missing X (i : Z) (idxs : list Z) r :
  i ∈ idxs →
  ring r !! replica_key str X i = None →
  ∃ e r', remove_points str X idxs r = Raised e r'.
Proof.
  revert r. induction idxs as [|j idxs IH]; intros r Hi Hk.
  - by apply elem_of_nil in Hi.
  - simpl. destruct (ring r !! replica_key str X j) as [v|] eqn:Hj; [|eauto].
    destruct (list_remove (replica_key str X j) (_sorted_keys r)) as [l|]; [|eauto].
    apply elem_of_cons in Hi as [->|Hi]; [congruence|].
    apply IH; [done|]. simpl.
    apply lookup_delete_None. by right.
Qed.

(** C3: if one of the replica points of [X] is missing from the ring,
    [remove_node X] ends by raising an exception. *)
Theorem remove_node_missing_raises r X (i : Z) :
  0 ≤ i < replicas r →
  ring r !! replica_key str X i = None →
  ∃ e r', remove_node str r X = Raised e r'.
Proof.
  intros Hi Hk. unfold remove_node.
  eapply remove_points_missing; [|done].
  by apply elem_of_range0.
Qed.

Lemma scan_hit (d : gmap string Node) (h : string) (l : list string)
    (i0 i : nat) (p : string) (n : Node) :
  first_at_or_after h l i p →
  d !! p = Some n →
  scan d h l i0 = Some (Ok (Some n, Some (i0 + i)%nat)).
Proof.
  revert i0 i. induction l as [|q l IH]; intros i0 i (Hi & Hle & Hmin) Hp.
  - by rewrite lookup_nil in Hi.
  - simpl. destruct i as [|i].
    + simpl in Hi. injection Hi as ->.
      rewrite decide_True by done. unfold getitem. rewrite Hp.
      by rewrite Nat.add_0_r.
    + rewrite decide_False by (apply (Hmin 0%nat q); [lia|done]).
      rewrite (IH (S i0) i).
      * by replace (S i0 + i)%nat with (i0 + S i)%nat by lia.
      * split_and!; [done..|].
        intros j q' Hj Hq'. apply (Hmin (S j) q'); [lia|done].
      * done.
Qed.

Lemma scan_past (d : gmap string Node) (h : string) (l : list string) (i0 : nat) :
  (∀ q, q ∈ l → strict String.le q h) →
  scan d h l i0 = None.
Proof.
  revert i0. induction l as [|q l IH]; intros i0 Hall; [done|].
  simpl. rewrite decide_False.
  - apply IH. intros q' Hq'. apply Hall. by right.
  - destruct (Hall q) as [_ Hn]; [by left|done].
Qed.

(** For a key given by its bytes and a selected entry that is a key of
    [ring]: [get_node_pos k] returns [(ring[p], i)] for the first entry [p]
    of [_sorted_keys], at index [i], with [gen_key k <= p]; when [gen_key k]
    is greater than every entry it returns [(ring[_sorted_keys[0]], 0)]. *)
Theorem get_node_pos_clockwise r k :
  ring r ≠ ∅ →
  (∀ i p n,
     first_at_or_after (gen_key k) (_sorted_keys r) i p →
     ring r !! p = Some n →
     get_node_pos r k = Ok (Some n, Some i)) ∧
  (∀ p0 n,
     (∀ q, q ∈ _sorted_keys r → strict String.le q (gen_key k)) →
     _sorted_keys r !! 0%nat = Some p0 →
     ring r !! p0 = Some n →
     get_node_pos r k = Ok (Some n, Some 0%nat)).
Proof.
  intros Hne. split.
  - intros i p n Hfirst Hp. unfold get_node_pos.
    rewrite decide_False by done.
    by rewrite (scan_hit _ _ _ 0 i p n).
  - intros p0 n Hpast H0 Hp0. unfold get_node_pos.
    rewrite decide_False by done.
    rewrite scan_past by done.
    destruct (_sorted_keys r) as [|q l]; [done|].
    simpl in H0. injection H0 as ->.
    unfold getitem. by rewrite Hp0.
Qed.

(** *** [list.remove] *)

Lemma list_remove_split (x : string) (l l' : list string) :
  list_remove x l = Some l' →
  ∃ l1 l2, l = l1 ++ x :: l2 ∧ l' = l1 ++ l2 ∧ x ∉ l1.
Proof.
  revert l'. induction l as [|y l IH]; intros l' Hrm; [done|].
  simpl in Hrm. destruct (decide (x = y)) as [->|Hxy].
  - injection Hrm as <-. exists [], l. split_and!; [done..|]. apply not_elem_of_nil.
  - destruct (list_remove x l) as [l0|] eqn:Hl; [|done].
    injection Hrm as <-.
    destruct (IH l0 eq_refl) as (l1 & l2 & -> & -> & Hx).
    exists (y :: l1), l2. split_and!; [done..|].
    rewrite not_elem_of_cons. done.
Qed.

Lemma list_remove_elem_of (x : string) (l : list string) :
  x ∈ l → is_Some (list_remove x l).
Proof.
  induction l as [|y l IH]; intros Hx; [by apply elem_of_nil in Hx|].
  simpl. destruct (decide (x = y)) as [->|Hxy]; [eauto|].
  apply elem_of_cons in Hx as [?|Hx]; [done|].
  destruct (IH Hx) as [l0 ->]. simpl. eauto.
Qed.

Lemma list_remove_Permutation (x : string) (l l' : list string) :
  list_remove x l = Some l' → l ≡ₚ x :: l'.
Proof.
  intros (l1 & l2 & -> & -> & _)%list_remove_split.
  by rewrite Permutation_middle.
Qed.

Lemma list_remove_Sorted (x : string) (l l' : list string) :
  list_remove x l = Some l' → Sorted String.le l → Sorted String.le l'.
Proof.
  intros (l1 & l2 & -> & -> & _)%list_remove_split Hs.
  apply Sorted_StronglySorted in Hs; [|apply _].
  apply StronglySorted_Sorted.
  apply StronglySorted_app in Hs as (H12 & Hs1 & Hs2).
  apply StronglySorted_app. split_and!; [|done|].
  - intros x1 x2 Hx1 Hx2. apply H12; [done|]. by right.
  - by apply StronglySorted_cons in Hs2 as [_ ?].
Qed.

(** *** [add_node] *)

Lemma fold_add_point_replicas X (idxs : list Z) r :
  replicas (fold_left (add_point str X) idxs r) = replicas r.
Proof. revert r. induction idxs as [|i idxs IH]; intros r; [done|]. simpl. by rewrite IH. Qed.

Lemma fold_add_point_keys X (idxs : list Z) r :
  _sorted_keys (fold_left (add_point str X) idxs r)
  = _sorted_keys r ++ (replica_key str X <$> idxs).
Proof.
  revert r. induction idxs as [|i idxs IH]; intros r; simpl.
  - by rewrite app_nil_r.
  - rewrite IH. simpl. by rewrite <-app_assoc.
Qed.

Lemma fold_add_point_lookup X (idxs : list Z) r k :
  ring (fold_left (add_point str X) idxs r) !! k
  = if decide (k ∈ replica_key str X <$> idxs) then Some X else ring r !! k.
Proof.
  revert r. induction idxs as [|i idxs IH]; intros r.
  - rewrite decide_False; [done|]. apply not_elem_of_nil.
  - rewrite fmap_cons. cbn [fold_left]. rewrite IH. cbn [add_point ring].
    destruct (decide (k ∈ replica_key str X <$> idxs)) as [Hin|Hin].
    + rewrite decide_True; [done|]. by right.
    + destruct (decide (k = replica_key str X i)) as [->|Hne].
      * rewrite decide_True by left. apply lookup_insert_eq.
      * rewrite decide_False by (rewrite not_elem_of_cons; done).
        by apply lookup_insert_ne.
Qed.

Lemma add_node_replicas r X : replicas (add_node str r X) = replicas r.
Proof. unfold add_node. simpl. apply fold_add_point_replicas. Qed.

Lemma add_node_lookup r X k :
  ring (add_node str r X) !! k
  = if decide (k ∈ replica_keys str r X) then Some X else ring r !! k.
Proof. unfold add_node. simpl. apply fold_add_point_lookup. Qed.

Lemma add_node_keys_Permutation r X :
  _sorted_keys (add_node str r X) ≡ₚ _sorted_keys r ++ replica_keys str r X.
Proof.
  unfold add_node. simpl. rewrite merge_sort_Permutation.
  by rewrite fold_add_point_keys.
Qed.

Lemma add_node_keys_Sorted r X : Sorted String.le (_sorted_keys (add_node str r X)).
Proof. unfold add_node. simpl. apply (Sorted_merge_sort _). Qed.

Lemma init_nodes (ns : list Node) (n : Z) :
  init str (Some ns) n = fold_left (add_node str) ns (init str None n).
Proof. by destruct ns. Qed.

Lemma returned_state_of (o : @outcome Node) :
  returned o = true → o = Returned (state_of o).
Proof. by destruct o. Qed.

(** *** The invariant between [ring] and [_sorted_keys] *)

Lemma keys_in_sync_init (n : Z) : keys_in_sync (init str None n).
Proof.
  split_and!; simpl.
  - constructor.
  - apply NoDup_nil_2.
  - intros k. rewrite lookup_empty. split.
    + by intros ?%elem_of_nil.
    + by intros ?%is_Some_None.
Qed.

Lemma keys_in_sync_add r X :
  keys_in_sync r → fresh str r X → keys_in_sync (add_node str r X).
Proof.
  intros (Hs & Hnd & Hdom) (Hk & Hnew). split_and!.
  - apply add_node_keys_Sorted.
  - rewrite add_node_keys_Permutation. apply NoDup_app. split_and!; [done| |done].
    intros k Hin Hk'. apply Hdom in Hin. rewrite (Hnew k Hk') in Hin.
    by apply is_Some_None in Hin.
  - intros k.
    rewrite add_node_keys_Permutation, elem_of_app, add_node_lookup, Hdom.
    case_decide; [|tauto].
    split; [by eauto | by right].
Qed.

Lemma keys_in_sync_remove_points X (idxs : list Z) r r' :
  keys_in_sync r → remove_points str X idxs r = Returned r' → keys_in_sync r'.
Proof.
  revert r. induction idxs as [|i idxs IH]; intros r Hsync Hrm; simpl in Hrm.
  - by injection Hrm as <-.
  - destruct (ring r !! replica_key str X i) as [v|] eqn:Hi; [|done].
    destruct (list_remove (replica_key str X i) (_sorted_keys r)) as [l|] eqn:Hl;
      [|done].
    apply IH in Hrm; [done|].
    destruct Hsync as (Hs & Hnd & Hdom).
    pose proof (list_remove_Permutation _ _ _ Hl) as Hp.
    rewrite Hp in Hnd. apply NoDup_cons in Hnd as [Hnotin Hnd].
    split_and!; simpl.
    + by eapply list_remove_Sorted.
    + done.
    + intros k. rewrite lookup_delete_is_Some, <-Hdom, Hp, elem_of_cons.
      split.
      * intros Hk. split; [|by right].
        intros Heq. apply Hnotin. by rewrite Heq.
      * by intros [Hne [->|Hk]].
Qed.

(** C4 (amended): after every sequence of successful operations in which a
    node is only added when its replica points are pairwise distinct and
    not yet in the ring, [_sorted_keys] is exactly the ascending,
    duplicate-free list of the keys of [ring]. *)
Theorem keys_in_sync_reachable_fresh r :
  reachable_fresh str r → keys_in_sync r.
Proof.
  induction 1 as [n|r X _ IH Hfresh|r X r' _ IH Hrm].
  - apply keys_in_sync_init.
  - by apply keys_in_sync_add.
  - by eapply keys_in_sync_remove_points.
Qed.

(** *** Replica points of a node *)

Lemma elem_of_replica_keys r X k :
  k ∈ replica_keys str r X ↔ ∃ i, 0 ≤ i < replicas r ∧ k = replica_key str X i.
Proof.
  unfold replica_keys. rewrite list_elem_of_fmap.
  split; intros (i & Hi1 & Hi2); exists i.
  - by rewrite <-elem_of_range0.
  - by rewrite elem_of_range0.
Qed.

Lemma length_replica_keys r X :
  length (replica_keys str r X) = Z.to_nat (replicas r).
Proof. unfold replica_keys, range0. by rewrite !length_fmap, length_seq. Qed.

(** A test of [fresh] that computes. *)
Lemma fresh_check r X :
  bool_decide (NoDup (replica_keys str r X)) = true →
  forallb (λ k, bool_decide (ring r !! k = None)) (replica_keys str r X) = true →
  fresh str r X.
Proof.
  intros Hnd Hall. split.
  - by apply bool_decide_eq_true in Hnd.
  - intros k Hk. rewrite forallb_forall in Hall.
    apply list_elem_of_In, Hall in Hk. by apply bool_decide_eq_true in Hk.
Qed.

Lemma remove_points_present X (idxs : list Z) r :
  NoDup (replica_key str X <$> idxs) →
  (∀ k, k ∈ replica_key str X <$> idxs →
        is_Some (ring r !! k) ∧ k ∈ _sorted_keys r) →
  ∃ r', remove_points str X idxs r = Returned r' ∧
        replicas r' = replicas r ∧
        (∀ k, ring r' !! k
              = if decide (k ∈ replica_key str X <$> idxs) then None
                else ring r !! k) ∧
        _sorted_keys r ≡ₚ (replica_key str X <$> idxs) ++ _sorted_keys r'.
Proof.
  revert r. induction idxs as [|i idxs IH]; intros r Hnd Hall.
  - exists r. split_and!; [done..| |done].
    intros k. rewrite decide_False; [done|]. apply not_elem_of_nil.
  - rewrite fmap_cons in Hnd, Hall. apply NoDup_cons in Hnd as [Hi Hnd].
    destruct (Hall (replica_key str X i)) as [[v Hv] Hin]; [by left|].
    destruct (list_remove_elem_of _ _ Hin) as [l Hl].
    pose proof (list_remove_Permutation _ _ _ Hl) as Hp.
    cbn [remove_points]. rewrite Hv. cbn [_sorted_keys]. rewrite Hl.
    destruct (IH (mkHashRing (replicas r) (delete (replica_key str X i) (ring r)) l))
      as (r' & Hrm & Hrep & Hlk & Hperm); [done| |].
    + intros k Hk. cbn [ring _sorted_keys].
      assert (replica_key str X i ≠ k) as Hne.
      { intros Heq. apply Hi. by rewrite Heq. }
      destruct (Hall k) as [Hsome Hk']; [by right|].
      split.
      * by apply lookup_delete_is_Some.
      * rewrite Hp in Hk'. by apply elem_of_cons in Hk' as [->|?].
    + exists r'. cbn [replicas ring _sorted_keys] in *. split_and!; [done..| |].
      * intros k. rewrite Hlk, fmap_cons.
        destruct (decide (k ∈ replica_key str X <$> idxs)) as [Hk|Hk].
        { rewrite decide_True; [done|]. by right. }
        destruct (decide (k = replica_key str X i)) as [->|Hne].
        { rewrite decide_True by left. apply lookup_delete_eq. }
        rewrite decide_False by (rewrite not_elem_of_cons; done).
        by apply lookup_delete_ne.
      * rewrite fmap_cons, Hp, Hperm. done.
Qed.

(** C5: when the replica points of [X] are pairwise distinct and new to the
    ring, and no point of the ring maps to [X], then after [add_node X]
    exactly [replicas] points map to [X], namely the [gen_key] of
    ['X:i'] for [i] in [0..replicas-1]; a following [remove_node X]
    succeeds and leaves no point mapping to [X]. *)
Theorem add_node_replica_points r X :
  0 ≤ replicas r →
  fresh str r X →
  (∀ k, ring r !! k ≠ Some X) →
  (∀ k, ring (add_node str r X) !! k = Some X
        ↔ ∃ i, 0 ≤ i < replicas r ∧ k = replica_key str X i) ∧
  Z.of_nat (size (filter (λ kv, kv.2 = X) (ring (add_node str r X)))) = replicas r ∧
  ∃ r', remove_node str (add_node str r X) X = Returned r' ∧
        (∀ k, ring r' !! k ≠ Some X) ∧
        size (filter (λ kv, kv.2 = X) (ring r')) = 0%nat.
Proof.
  intros Hrep [Hnd Hnew] Habsent.
  assert (∀ k, ring (add_node str r X) !! k = Some X ↔ k ∈ replica_keys str r X)
    as Hpoints.
  { intros k. rewrite add_node_lookup. case_decide; [done|].
    split; [by intros ?%Habsent|done]. }
  split_and!.
  - intros k. by rewrite Hpoints, elem_of_replica_keys.
  - assert (dom (filter (λ kv, kv.2 = X) (ring (add_node str r X)))
            = list_to_set (replica_keys str r X) :> gset string) as Hdom.
    { apply set_eq. intros k.
      rewrite elem_of_dom, elem_of_list_to_set, <-Hpoints. unfold is_Some.
      setoid_rewrite map_lookup_filter_Some. simpl. split.
      - by intros (v & Hv & ->).
      - intros Hk. by exists X. }
    rewrite <-(size_dom (D:=gset string)), Hdom, size_list_to_set by done.
    rewrite length_replica_keys. lia.
  - destruct (remove_points_present X (range0 (replicas r)) (add_node str r X))
      as (r' & Hrm & _ & Hlk & _); [done| |].
    { intros k Hk. split.
      - exists X. by apply Hpoints.
      - rewrite add_node_keys_Permutation, elem_of_app. by right. }
    assert (∀ k, ring r' !! k ≠ Some X) as Hgone.
    { intros k. rewrite Hlk. case_decide as Hk; [done|].
      rewrite Hpoints. exact Hk. }
    exists r'. split_and!.
    + unfold remove_node. by rewrite add_node_replicas.
    + done.
    + apply map_size_empty_iff, map_empty. intros k.
      apply map_lookup_filter_None. right. intros v Hv. simpl. intros ->.
      by apply (Hgone k).
Qed.

(** A test, that computes, of "no point of the ring maps to [X]". *)
Lemma absent_check r X :
  bool_decide (map_Forall (λ _ v, v ≠ X) (ring r)) = true →
  ∀ k, ring r !! k ≠ Some X.
Proof.
  intros Hall%bool_decide_eq_true k Hk. by apply (Hall k X Hk).
Qed.

Lemma count_occ_NoDup (l : list string) k :
  NoDup l → k ∈ l → count_occ String.eq_dec l k = 1%nat.
Proof.
  intros Hnd%NoDup_ListNoDup Hk%list_elem_of_In.
  by apply (NoDup_count_occ' String.eq_dec).
Qed.

(** C10: adding a node whose replica points are all in the ring already
    (owned by it, pairwise distinct, the ring being in sync) leaves [ring]
    as it is and appends the same points to [_sorted_keys] once more:
    [_sorted_keys] grows by [replicas] entries, holds each point of the node
    twice, and is no longer the key set of [ring]. *)
Theorem add_node_again r X :
  keys_in_sync r →
  0 < replicas r →
  NoDup (replica_keys str r X) →
  (∀ k, k ∈ replica_keys str r X → ring r !! k = Some X) →
  ring (add_node str r X) = ring r ∧
  size (ring (add_node str r X)) = size (ring r) ∧
  length (_sorted_keys (add_node str r X))
  = (length (_sorted_keys r) + Z.to_nat (replicas r))%nat ∧
  (∀ k, k ∈ replica_keys str r X →
        count_occ String.eq_dec (_sorted_keys (add_node str r X)) k = 2%nat) ∧
  ¬ keys_in_sync (add_node str r X).
Proof.
  intros (Hs & Hnd & Hdom) Hrep Hkeys Hpresent.
  assert (ring (add_node str r X) = ring r) as Hring.
  { apply map_eq. intros k. rewrite add_node_lookup.
    case_decide as Hk; [|done]. by rewrite Hpresent. }
  assert (∀ k, k ∈ replica_keys str r X →
            count_occ String.eq_dec (_sorted_keys (add_node str r X)) k = 2%nat)
    as Htwice.
  { intros k Hk.
    rewrite (proj1 (Permutation_count_occ String.eq_dec _ _)
               (add_node_keys_Permutation r X)).
    rewrite count_occ_app, !count_occ_NoDup; [done..|].
    apply Hdom. rewrite Hpresent by done. eauto. }
  split_and!; [done|by rewrite Hring| |done|].
  - by rewrite add_node_keys_Permutation, length_app, length_replica_keys.
  - intros (_ & Hnd' & Hdom').
    assert (replica_key str X 0 ∈ replica_keys str r X) as H0.
    { apply elem_of_replica_keys. exists 0. split; [lia|done]. }
    pose proof (Htwice _ H0) as H2.
    rewrite count_occ_NoDup in H2; [done..|].
    apply Hdom'. rewrite Hring, Hpresent by done. eauto.
Qed.

(** *** The generator on an empty ring *)

Lemma get_node_pos_empty r k : ring r = ∅ → get_node_pos r k = Ok (None, None).
Proof. intros Hr. unfold get_node_pos. by rewrite decide_True. Qed.

Lemma next_cycle_empty r k (fuel : nat) :
  _sorted_keys r = [] → next fuel r k (InCycle 0) = None.
Proof.
  intros Hkeys. induction fuel as [|fuel IH]; [done|].
  cbn [next get_nodes_step]. by rewrite Hkeys.
Qed.

Lemma next_empty_start r k (fuel : nat) :
  ring r = ∅ → next (S fuel) r k AtStart = Some (Yield Sentinel AtLookup).
Proof. intros Hr. cbn [next get_nodes_step]. by rewrite decide_True. Qed.

Lemma next_empty_resume r k (fuel : nat) :
  ring r = ∅ → _sorted_keys r = [] → next fuel r k AtLookup = None.
Proof.
  intros Hr Hkeys. destruct fuel as [|[|fuel]]; [done| |].
  - cbn [next get_nodes_step]. by rewrite get_node_pos_empty.
  - cbn [next get_nodes_step]. rewrite get_node_pos_empty by done.
    cbn [slice_from]. rewrite Hkeys. by apply next_cycle_empty.
Qed.

(** The digest text has 32 characters, whatever the key. *)
Lemma length_hex_of_bytes (bs : list Z) :
  String.length (MD5.hex_of_bytes bs) = (2 * length bs)%nat.
Proof. induction bs as [|b bs IH]; [done|]. simpl. rewrite IH. lia. Qed.

Lemma length_digest (msg : list Z) : length (MD5.digest msg) = 16%nat.
Proof.
  unfold MD5.digest.
  by destruct (fold_left _ _ _) as [[[a b] c] d].
Qed.

Lemma length_gen_key k : String.length (gen_key k) = 32%nat.
Proof.
  unfold gen_key, MD5.hexdigest. by rewrite length_hex_of_bytes, length_digest.
Qed.

(** *** The keys as numbers *)

Lemma hex_digit_compare (a b : Z) :
  0 ≤ a < 16 → 0 ≤ b < 16 →
  Ascii.compare (MD5.hex_digit a) (MD5.hex_digit b) = (a ?= b).
Proof.
  intros Ha Hb.
  assert (Forall (λ x, Forall (λ y,
            Ascii.compare (MD5.hex_digit x) (MD5.hex_digit y) = (x ?= y))
            (seqZ 0 16)) (seqZ 0 16)) as Hall.
  { apply (bool_decide_eq_true_1 _). vm_compute. reflexivity. }
  rewrite Forall_forall in Hall.
  specialize (Hall a). rewrite Forall_forall in Hall.
  apply Hall; apply elem_of_seqZ; lia.
Qed.

Lemma be_value_bound (bs : list Z) :
  Forall is_byte bs → 0 ≤ be_value bs < 256 ^ Z.of_nat (length bs).
Proof.
  induction 1 as [|b bs Hb _ IH]; simpl length; cbn [be_value]; [lia|].
  rewrite Nat2Z.inj_succ, Z.pow_succ_r by lia.
  unfold is_byte in Hb. nia.
Qed.

Lemma hex_of_bytes_compare (bs1 bs2 : list Z) :
  length bs1 = length bs2 →
  Forall is_byte bs1 → Forall is_byte bs2 →
  String.compare (MD5.hex_of_bytes bs1) (MD5.hex_of_bytes bs2)
  = (be_value bs1 ?= be_value bs2).
Proof.
  intros Hlen H1. revert bs2 Hlen.
  induction H1 as [|b1 bs1 Hb1 H1 IH]; intros [|b2 bs2] Hlen H2; try done.
  apply Forall_cons in H2 as [Hb2 H2].
  injection Hlen as Hlen.
  cbn [MD5.hex_of_bytes String.compare be_value].
  unfold is_byte in Hb1, Hb2.
  replace 0xf with (Z.ones 4) by done.
  rewrite !Z.land_ones, !Z.shiftr_div_pow2 by lia.
  change (2 ^ 4) with 16.
  rewrite !hex_digit_compare
    by (try apply Z.mod_pos_bound; try (split; [apply Z.div_pos|apply Z.div_lt_upper_bound]); lia).
  rewrite (IH bs2 Hlen H2). rewrite <-Hlen.
  pose proof (be_value_bound bs1 H1) as Hv1.
  pose proof (be_value_bound bs2 H2) as Hv2. rewrite <-Hlen in Hv2.
  set (P := 256 ^ Z.of_nat (length bs1)) in *.
  pose proof (Z.div_mod b1 16 ltac:(lia)) as Hd1.
  pose proof (Z.div_mod b2 16 ltac:(lia)) as Hd2.
  pose proof (Z.mod_pos_bound b1 16 ltac:(lia)) as Hm1.
  pose proof (Z.mod_pos_bound b2 16 ltac:(lia)) as Hm2.
  destruct (Z.compare_spec (b1 / 16) (b2 / 16));
    [destruct (Z.compare_spec (b1 mod 16) (b2 mod 16));
       [destruct (Z.compare_spec (be_value bs1) (be_value bs2))|..]|..];
    symmetry; first [apply Z.compare_eq_iff | apply Z.compare_lt_iff | apply Z.compare_gt_iff]; nia.
Qed.

Lemma le_bytes_is_byte (n : nat) (x : Z) : Forall is_byte (MD5.le_bytes n x).
Proof.
  revert x. induction n as [|n IH]; intros x; simpl; constructor; [|done].
  unfold is_byte. replace 0xff with (Z.ones 8) by done.
  rewrite Z.land_ones by lia. apply Z.mod_pos_bound. lia.
Qed.

Lemma digest_is_byte (msg : list Z) : Forall is_byte (MD5.digest msg).
Proof.
  unfold MD5.digest. destruct (fold_left _ _ _) as [[[a b] c] d].
  rewrite !Forall_app. split_and!; apply le_bytes_is_byte.
Qed.

Lemma digest_value_bound k : 0 ≤ digest_value k < 2 ^ 128.
Proof.
  unfold digest_value.
  pose proof (be_value_bound _ (digest_is_byte (MD5.bytes_of_string k))) as Hb.
  by rewrite length_digest in Hb.
Qed.

(** The order of the texts [gen_key] returns is the order of the 128-bit
    numbers they write. *)
Lemma gen_key_le_digest_value k1 k2 :
  String.le (gen_key k1) (gen_key k2) ↔ digest_value k1 ≤ digest_value k2.
Proof.
  unfold String.le, String.leb, gen_key, MD5.hexdigest, digest_value.
  rewrite hex_of_bytes_compare
    by (rewrite ?length_digest; auto using digest_is_byte).
  unfold Z.le. by destruct (_ ?= _).
Qed.

(** *** Lookup is total on a ring in sync *)

Lemma scan_in_dom (d : gmap string Node) (h : string) (l : list string) (i0 : nat) :
  (∀ q, q ∈ l → is_Some (d !! q)) →
  scan d h l i0 = None ∨ ∃ n i, scan d h l i0 = Some (Ok (Some n, Some i)).
Proof.
  revert i0. induction l as [|q l IH]; intros i0 Hdom; [by left|].
  simpl. case_decide.
  - right. destruct (Hdom q) as [n Hn]; [by left|].
    exists n, i0. unfold getitem. by rewrite Hn.
  - apply IH. intros q' Hq'. apply Hdom. by right.
Qed.

Lemma get_node_pos_total r k :
  keys_in_sync r → ring r ≠ ∅ →
  ∃ n i, get_node_pos r k = Ok (Some n, Some i).
Proof.
  intros (_ & _ & Hdom) Hne. unfold get_node_pos.
  rewrite decide_False by done.
  destruct (scan_in_dom (ring r) (gen_key k) (_sorted_keys r) 0) as [->|(n & i & ->)].
  - intros q Hq. by apply Hdom.
  - destruct (map_choose _ Hne) as (q & v & Hq).
    assert (q ∈ _sorted_keys r) as Hin by (apply Hdom; eauto).
    destruct (_sorted_keys r) as [|n0 l]; [by apply elem_of_nil in Hin|].
    destruct (proj1 (Hdom n0)) as [v0 Hv0]; [by left|].
    exists v0, 0%nat. unfold getitem. by rewrite Hv0.
  - eauto.
Qed.

End Properties.

Lemma empty_ring_lookup_witness :
  get_node_pos ring_empty "x" = Ok (None, None) ∧ get_node ring_empty "x" = Ok None.
Proof. apply (empty_ring_lookup ring_empty "x"). reflexivity. Defined.

Lemma remove_node_unknown_unchanged_witness :
  remove_node id ring_AB "C"
  = Raised (KeyError (replica_key id "C" 0)) ring_AB.
Proof.
  apply (remove_node_unknown_unchanged id ring_AB "C").
  - reflexivity.
  - vm_compute. reflexivity.
Defined.

Lemma remove_node_missing_raises_witness :
  ∃ e r', remove_node id ring_AB "C" = Raised e r'.
Proof.
  apply (remove_node_missing_raises id ring_AB "C" 2).
  - split; [discriminate | reflexivity].
  - vm_compute. reflexivity.
Defined.

(** C4 (as stated) fails: adding ["A"] twice and removing it once are three
    successful operations that leave the three points of ["A"] in
    [_sorted_keys] while [ring] is empty. *)
Lemma keys_in_sync_counterexample :
  reachable id ring_A_twice_removed ∧ ¬ keys_in_sync ring_A_twice_removed.
Proof.
  split.
  - apply (reach_remove id ring_A_twice "A").
    + apply reach_add, reach_init.
    + apply returned_state_of. vm_compute. reflexivity.
  - intros (_ & _ & Hdom).
    destruct (Hdom "57e1e221c0a1aa811bc8d4d8dd6deaa7") as [Hin _].
    assert (is_Some (ring ring_A_twice_removed !! "57e1e221c0a1aa811bc8d4d8dd6deaa7"))
      as [v Hv].
    { apply Hin. apply list_elem_of_In. vm_compute. tauto. }
    vm_compute in Hv. discriminate Hv.
Qed.

Lemma keys_in_sync_reachable_fresh_witness : keys_in_sync ring_B_left.
Proof.
  apply (keys_in_sync_reachable_fresh id ring_B_left).
  apply (reachf_remove id (add_node id (add_node id ring_empty "A") "B") "A").
  - apply reachf_add; [apply reachf_add; [apply reachf_init|]|].
    + apply fresh_check; vm_compute; reflexivity.
    + apply fresh_check; vm_compute; reflexivity.
  - apply returned_state_of. vm_compute. reflexivity.
Defined.

Lemma add_node_replica_points_witness :
  (∀ k, ring (add_node id ring_A "B") !! k = Some "B"
        ↔ ∃ i, 0 ≤ i < replicas ring_A ∧ k = replica_key id "B" i) ∧
  Z.of_nat (size (filter (λ kv, kv.2 = "B") (ring (add_node id ring_A "B"))))
  = replicas ring_A ∧
  ∃ r', remove_node id (add_node id ring_A "B") "B" = Returned r' ∧
        (∀ k, ring r' !! k ≠ Some "B") ∧
        size (filter (λ kv, kv.2 = "B") (ring r')) = 0%nat.
Proof.
  apply (add_node_replica_points id ring_A "B").
  - discriminate.
  - apply fresh_check; vm_compute; reflexivity.
  - apply absent_check. vm_compute. reflexivity.
Defined.

Lemma add_node_again_witness :
  ring (add_node id ring_A "A") = ring ring_A ∧
  size (ring (add_node id ring_A "A")) = size (ring ring_A) ∧
  length (_sorted_keys (add_node id ring_A "A"))
  = (length (_sorted_keys ring_A) + Z.to_nat (replicas ring_A))%nat ∧
  (∀ k, k ∈ replica_keys id ring_A "A" →
        count_occ String.eq_dec (_sorted_keys (add_node id ring_A "A")) k = 2%nat) ∧
  ¬ keys_in_sync (add_node id ring_A "A").
Proof.
  apply (add_node_again id ring_A "A").
  - apply (keys_in_sync_add id ring_empty "A").
    + apply keys_in_sync_init.
    + apply fresh_check; vm_compute; reflexivity.
  - reflexivity.
  - apply (bool_decide_eq_true_1 _). vm_compute. reflexivity.
  - intros k Hk. apply list_elem_of_In in Hk. vm_compute in Hk.
    destruct Hk as [<-|[<-|[<-|[]]]]; vm_compute; reflexivity.
Defined.

(** C6, on the code: on [HashRing()] the generator yields [(None, None)];
    resumed, it falls through to [while True] over an empty [_sorted_keys]
    and runs for ever: no bound on the number of steps lets [next] yield,
    stop or raise. *)
Theorem get_nodes_empty_ring_hangs :
  next 1 ring_empty "x" AtStart = Some (Yield Sentinel AtLookup) ∧
  ∀ fuel, next fuel ring_empty "x" AtLookup = None.
Proof.
  split.
  - by apply next_empty_start.
  - intros fuel. by apply next_empty_resume.
Qed.

(** C7, on the code: [gen_key] returns the hexadecimal text of the digest,
    32 characters long, not an integer. *)
Theorem gen_key_hex_text :
  gen_key "" = "d41d8cd98f00b204e9800998ecf8427e" ∧
  ∀ k, String.length (gen_key k) = 32%nat.
Proof.
  split.
  - vm_compute. reflexivity.
  - apply length_gen_key.
Qed.

(** ** Further properties of the code *)

Section Further.

Context {Node : Type} `{EqDecision Node}.
Variable str : Node → string.

Implicit Types (r : @HashRing Node) (X : Node) (k key : string).

(** *** What [get_node_pos] selects *)

Lemma scan_list_find (d : gmap string Node) (h : string) (l : list string) (i0 : nat) :
  scan d h l i0
  = (λ ip : nat * string,
       match d !! ip.2 with
       | Some v => Ok (Some v, Some (i0 + ip.1)%nat)
       | None => Err (KeyError ip.2)
       end) <$> list_find (String.le h) l.
Proof.
  revert i0. induction l as [|q l IH]; intros i0; [done|].
  cbn [scan list_find]. case_decide as Hle.
  - rewrite decide_True by done. cbn. unfold getitem.
    rewrite Nat.add_0_r. by destruct (d !! q).
  - rewrite decide_False by done. rewrite IH.
    destruct (list_find (String.le h) l) as [[i p]|]; [|done].
    cbn. by rewrite Nat.add_succ_r.
Qed.

Lemma get_node_pos_owner r k :
  ring r ≠ ∅ →
  get_node_pos r k
  = match owner_index (gen_key k) (_sorted_keys r) with
    | None => Err IndexError
    | Some (i, p) =>
        match ring r !! p with
        | Some v => Ok (Some v, Some i)
        | None => Err (KeyError p)
        end
    end.
Proof.
  intros Hne. unfold get_node_pos, owner_index.
  rewrite decide_False by done. rewrite scan_list_find.
  destruct (list_find _ _) as [[i p]|]; [done|].
  cbn. unfold getitem. destruct (_sorted_keys r) as [|p l]; [done|].
  by destruct (ring r !! p).
Qed.

Lemma owner_index_lookup (h : string) (l : list string) (i : nat) (p : string) :
  owner_index h l = Some (i, p) → l !! i = Some p.
Proof.
  unfold owner_index.
  destruct (list_find _ l) as [ip|] eqn:Hf.
  - intros [= ->]. by apply list_find_Some in Hf as [? _].
  - destruct l; [done|]. by intros [= <- <-].
Qed.

Lemma owner_index_case (h : string) (l : list string) (i : nat) (p : string) :
  owner_index h l = Some (i, p) →
  first_at_or_after h l i p ∨ (i = 0%nat ∧ ∀ q, q ∈ l → strict String.le q h).
Proof.
  unfold owner_index.
  destruct (list_find _ l) as [ip|] eqn:Hf.
  - intros [= ->]. left. apply list_find_Some in Hf as (Hi & Hle & Hmin).
    split_and!; [done..|]. intros j q Hj Hq. by apply (Hmin j q).
  - destruct l as [|p0 l]; [done|]. intros [= <- <-]. right. split; [done|].
    apply list_find_None in Hf. rewrite Forall_forall in Hf.
    intros q Hq. pose proof (Hf q Hq) as Hn.
    split; [|done]. by destruct (total String.le q h).
Qed.

Lemma owner_index_None (h : string) (l : list string) :
  owner_index h l = None → l = [].
Proof.
  unfold owner_index. destruct (list_find _ _); [done|]. by destruct l.
Qed.

Lemma get_node_pos_Some r k (n : Node) (i : nat) :
  get_node_pos r k = Ok (Some n, Some i) →
  ring r ≠ ∅ ∧
  ∃ p, owner_index (gen_key k) (_sorted_keys r) = Some (i, p) ∧ ring r !! p = Some n.
Proof.
  intros Hpos.
  assert (ring r ≠ ∅) as Hne.
  { intros He. by rewrite get_node_pos_empty in Hpos. }
  split; [done|]. rewrite get_node_pos_owner in Hpos by done.
  destruct (owner_index _ _) as [[i0 p]|] eqn:Ho; [|done].
  destruct (ring r !! p) as [n0|] eqn:Hp; [|done].
  injection Hpos as -> ->. by exists p.
Qed.

Lemma get_node_Some r k (n : Node) :
  get_node r k = Ok (Some n) →
  ring r ≠ ∅ ∧
  ∃ i p, owner_index (gen_key k) (_sorted_keys r) = Some (i, p) ∧ ring r !! p = Some n.
Proof.
  unfold get_node. intros Hget.
  assert (ring r ≠ ∅) as Hne.
  { intros He. by rewrite get_node_pos_empty in Hget. }
  split; [done|]. rewrite get_node_pos_owner in Hget by done.
  destruct (owner_index _ _) as [[i p]|]; [|done].
  exists i, p. split; [done|].
  destruct (ring r !! p); [|done]. by injection Hget as ->.
Qed.

(** X1: an answer of [get_node_pos] is either [(None, None)], on a ring
    without points, or [(ring[p], i)] where [p] is the entry of index [i]
    of [_sorted_keys], which is the first entry at or after the hash of the
    key, or entry 0 when every entry is below that hash. *)
Theorem get_node_pos_inv r k (res : option Node * option nat) :
  get_node_pos r k = Ok res →
  (res = (None, None) ∧ ring r = ∅) ∨
  ∃ n i p,
    res = (Some n, Some i) ∧ ring r ≠ ∅ ∧
    _sorted_keys r !! i = Some p ∧ ring r !! p = Some n ∧
    (first_at_or_after (gen_key k) (_sorted_keys r) i p ∨
     (i = 0%nat ∧ ∀ q, q ∈ _sorted_keys r → strict String.le q (gen_key k))).
Proof.
  destruct (decide (ring r = ∅)) as [He|Hne].
  - rewrite get_node_pos_empty by done. intros [= <-]. by left.
  - rewrite get_node_pos_owner by done.
    destruct (owner_index _ _) as [[i p]|] eqn:Ho; [|done].
    destruct (ring r !! p) as [n|] eqn:Hp; [|done].
    intros [= <-]. right. exists n, i, p.
    split_and!; [done..|by eapply owner_index_lookup|done|by apply owner_index_case].
Qed.

(** On a key given by its bytes: if [get_node_pos] raises, the ring has
    points and either
    [_sorted_keys] is empty ([IndexError]) or the selected entry of
    [_sorted_keys] is not a key of [ring] ([KeyError]). *)
Theorem get_node_pos_error r k (e : exn) :
  get_node_pos r k = Err e →
  ring r ≠ ∅ ∧
  ((e = IndexError ∧ _sorted_keys r = []) ∨
   ∃ i q, e = KeyError q ∧ _sorted_keys r !! i = Some q ∧ ring r !! q = None).
Proof.
  destruct (decide (ring r = ∅)) as [He|Hne].
  - by rewrite get_node_pos_empty.
  - rewrite get_node_pos_owner by done. intros Hres. split; [done|].
    revert Hres. destruct (owner_index _ _) as [[i p]|] eqn:Ho.
    + destruct (ring r !! p) as [n|] eqn:Hp; [done|].
      intros [= <-]. right. exists i, p.
      split_and!; [done|by eapply owner_index_lookup|done].
    + intros [= <-]. left. split; [done|].
      unfold owner_index in Ho. destruct (list_find _ _); [done|].
      by destruct (_sorted_keys r).
Qed.

(** *** Invariants of every reachable ring *)

Lemma replica_keys_add_node r X Y :
  replica_keys str (add_node str r X) Y = replica_keys str r Y.
Proof. unfold replica_keys. by rewrite add_node_replicas. Qed.

Lemma remove_points_replicas X (idxs : list Z) r :
  replicas (state_of (remove_points str X idxs r)) = replicas r.
Proof.
  revert r. induction idxs as [|i idxs IH]; intros r; [done|].
  cbn [remove_points]. destruct (ring r !! _); [|done].
  cbn [_sorted_keys]. destruct (list_remove _ _); [|done].
  by rewrite IH.
Qed.

Lemma fold_add_node_replicas (ns : list Node) r :
  replicas (fold_left (add_node str) ns r) = replicas r.
Proof.
  revert r. induction ns as [|X ns IH]; intros r; [done|].
  cbn [fold_left]. by rewrite IH, add_node_replicas.
Qed.

(** X3: [replicas] is set by the constructor and changed by no method,
    however the method ends. *)
Theorem replicas_unchanged (nodes : option (list Node)) (n : Z) r X :
  replicas (init str nodes n) = n ∧
  replicas (add_node str r X) = replicas r ∧
  replicas (state_of (remove_node str r X)) = replicas r.
Proof.
  split_and!.
  - destruct nodes as [ns|]; [|done].
    by rewrite init_nodes, fold_add_node_replicas.
  - apply add_node_replicas.
  - apply remove_points_replicas.
Qed.

Lemma ring_inv_empty (n : Z) : ring_inv str (init str None n).
Proof.
  split_and!.
  - intros k X. cbn. by rewrite lookup_empty.
  - intros q. cbn. rewrite lookup_empty. by intros ?%is_Some_None.
  - constructor.
Qed.

Lemma ring_inv_add r X : ring_inv str r → ring_inv str (add_node str r X).
Proof.
  intros (Hown & Hcov & _). split_and!.
  - intros k Y. rewrite add_node_lookup, replica_keys_add_node.
    case_decide as Hk; [by intros [= <-]|]. apply Hown.
  - intros q. rewrite add_node_lookup, add_node_keys_Permutation, elem_of_app.
    case_decide as Hq; [by right|]. left. by apply Hcov.
  - apply add_node_keys_Sorted.
Qed.

Lemma ring_inv_fold_add (ns : list Node) r :
  ring_inv str r → ring_inv str (fold_left (add_node str) ns r).
Proof.
  revert r. induction ns as [|X ns IH]; intros r Hr; [done|].
  cbn [fold_left]. by apply IH, ring_inv_add.
Qed.

Lemma ring_inv_remove_points X (idxs : list Z) r :
  ring_inv str r → ring_inv str (state_of (remove_points str X idxs r)).
Proof.
  revert r. induction idxs as [|i idxs IH]; intros r Hr; [done|].
  cbn [remove_points]. destruct (ring r !! replica_key str X i) as [v|] eqn:Hi; [|done].
  cbn [_sorted_keys].
  destruct (list_remove (replica_key str X i) (_sorted_keys r)) as [l|] eqn:Hl.
  - apply IH. destruct Hr as (Hown & Hcov & Hs).
    pose proof (list_remove_Permutation _ _ _ Hl) as Hp.
    split_and!.
    + intros k Y. cbn. intros [_ Hk]%lookup_delete_Some. by apply Hown.
    + intros q. cbn. intros [Hne Hq]%lookup_delete_is_Some.
      apply Hcov in Hq. rewrite Hp in Hq.
      by apply elem_of_cons in Hq as [->|Hq].
    + cbn. by eapply list_remove_Sorted.
  - cbn [state_of]. destruct Hr as (Hown & Hcov & Hs).
    split_and!; [| |done].
    + intros k Y. cbn. intros [_ Hk]%lookup_delete_Some. by apply Hown.
    + intros q. cbn. intros [_ Hq]%lookup_delete_is_Some. by apply Hcov.
Qed.

Lemma reachable_inv r :
  reachable str r → ring_inv str r.
Proof.
  induction 1 as [nodes n|r X _ IH|r X r' _ IH Hrm].
  - destruct nodes as [ns|]; [|apply ring_inv_empty].
    rewrite init_nodes. apply ring_inv_fold_add, ring_inv_empty.
  - by apply ring_inv_add.
  - pose proof (ring_inv_remove_points X (range0 (replicas r)) r IH) as Hinv.
    unfold remove_node in Hrm. by rewrite Hrm in Hinv.
Qed.

(** X4: after any sequence of successful operations, in sync or not, every
    point of [ring] is a replica point of the node it maps to, every key of
    [ring] is in [_sorted_keys], and [_sorted_keys] is ascending. *)
Theorem reachable_ring_inv r :
  reachable str r →
  owner_consistent str r ∧ covered r ∧ Sorted String.le (_sorted_keys r).
Proof.
  induction 1 as [nodes n|r X _ IH|r X r' _ IH Hrm].
  - destruct nodes as [ns|]; [|apply ring_inv_empty].
    rewrite init_nodes. apply ring_inv_fold_add, ring_inv_empty.
  - by apply ring_inv_add.
  - pose proof (ring_inv_remove_points X (range0 (replicas r)) r IH) as Hinv.
    unfold remove_node in Hrm. by rewrite Hrm in Hinv.
Qed.

(** On a key given by its bytes and a ring reached by successful
    operations, a lookup can only fail
    with [KeyError], on an entry of [_sorted_keys] that is not a key of
    [ring]; it never fails with [IndexError]. *)
Theorem reachable_lookup_error r k (e : exn) :
  reachable str r →
  get_node_pos r k = Err e →
  ∃ i q, e = KeyError q ∧ _sorted_keys r !! i = Some q ∧ ring r !! q = None.
Proof.
  intros (_ & Hcov & _)%reachable_inv Herr.
  assert (ring r ≠ ∅) as Hne.
  { intros He. by rewrite get_node_pos_empty in Herr. }
  rewrite get_node_pos_owner in Herr by done.
  destruct (owner_index _ _) as [[i p]|] eqn:Ho.
  - destruct (ring r !! p) as [n|] eqn:Hp; [done|]. injection Herr as <-.
    exists i, p. split_and!; [done| |done]. by eapply owner_index_lookup.
  - apply owner_index_None in Ho.
    destruct (map_choose _ Hne) as (q & v & Hq).
    assert (q ∈ _sorted_keys r) as Hin by (apply Hcov; eauto).
    rewrite Ho in Hin. by apply elem_of_nil in Hin.
Qed.

(** *** Rings built by the constructor *)

Lemma lookup_ok r k :
  ring r ≠ ∅ → covered r → no_dangling r →
  ∃ n i p, get_node_pos r k = Ok (Some n, Some i) ∧ ring r !! p = Some n.
Proof.
  intros Hne Hcov Hnd. rewrite get_node_pos_owner by done.
  destruct (owner_index _ _) as [[i p]|] eqn:Ho.
  - destruct (Hnd p) as [n Hn].
    { eapply list_elem_of_lookup_2, owner_index_lookup, Ho. }
    exists n, i, p. by rewrite Hn.
  - destruct (map_choose _ Hne) as (q & v & Hq).
    assert (q ∈ _sorted_keys r) as Hin by (apply Hcov; eauto).
    unfold owner_index in Ho. destruct (list_find _ _); [done|].
    destruct (_sorted_keys r); [by apply elem_of_nil in Hin|done].
Qed.

Lemma built_from_add (S : list Node) r X :
  X ∈ S → built_from S r → built_from S (add_node str r X).
Proof.
  intros HX (Hnd & Hcov & Hval). split_and!.
  - intros q. rewrite add_node_keys_Permutation, elem_of_app, add_node_lookup.
    case_decide as Hq; [by eauto|]. intros [Hin|Hin]; [by apply Hnd|done].
  - intros q. rewrite add_node_lookup, add_node_keys_Permutation, elem_of_app.
    case_decide as Hq; [by right|]. left. by apply Hcov.
  - intros q v. rewrite add_node_lookup.
    case_decide as Hq; [by intros [= <-]|]. apply Hval.
Qed.

Lemma built_from_fold (S ns : list Node) r :
  (∀ X, X ∈ ns → X ∈ S) → built_from S r →
  built_from S (fold_left (add_node str) ns r).
Proof.
  revert r. induction ns as [|X ns IH]; intros r Hsub Hr; [done|].
  cbn [fold_left]. apply IH.
  - intros Y HY. apply Hsub. by right.
  - apply built_from_add; [|done]. apply Hsub. by left.
Qed.

Lemma fold_add_node_is_Some (ns : list Node) r q :
  is_Some (ring r !! q) → is_Some (ring (fold_left (add_node str) ns r) !! q).
Proof.
  revert r. induction ns as [|X ns IH]; intros r Hq; [done|].
  cbn [fold_left]. apply IH. rewrite add_node_lookup. by case_decide; eauto.
Qed.

(** On a key given by its bytes: a ring constructed from a non-empty list
    of nodes, with at least one
    replica per node, answers every lookup with one of these nodes and never
    raises, whatever the list (repeated nodes, colliding points). *)
Theorem init_lookup_member (nodes : list Node) (n : Z) k :
  0 < n → nodes ≠ [] →
  ∃ X, X ∈ nodes ∧ get_node (init str (Some nodes) n) k = Ok (Some X).
Proof.
  intros Hn Hnodes. rewrite init_nodes.
  set (r0 := init str None n).
  assert (built_from nodes (fold_left (add_node str) nodes r0)) as (Hnd & Hcov & Hval).
  { apply built_from_fold; [done|]. split_and!.
    - by intros q ?%elem_of_nil.
    - intros q. cbn. rewrite lookup_empty. by intros ?%is_Some_None.
    - intros q v. cbn. by rewrite lookup_empty. }
  assert (ring (fold_left (add_node str) nodes r0) ≠ ∅) as Hne.
  { destruct nodes as [|X0 ns]; [done|]. cbn [fold_left].
    assert (is_Some (ring (add_node str r0 X0) !! replica_key str X0 0)) as Hk.
    { rewrite add_node_lookup, decide_True; [by eauto|].
      apply elem_of_replica_keys. exists 0. split; [cbn; lia|done]. }
    apply (fold_add_node_is_Some ns) in Hk as [v Hv].
    intros He. by rewrite He, lookup_empty in Hv. }
  destruct (lookup_ok _ k Hne Hcov Hnd) as (v & i & p & Hpos & Hp).
  exists v. split; [by eapply Hval|]. unfold get_node. by rewrite Hpos.
Qed.

(** *** Removing a node *)

Lemma owner_index_remove (h x : string) (l l' : list string) (i : nat) (p : string) :
  list_remove x l = Some l' →
  owner_index h l = Some (i, p) →
  x ≠ p →
  ∃ i', owner_index h l' = Some (i', p) ∧ (i' ≤ i)%nat.
Proof.
  intros (l1 & l2 & -> & -> & _)%list_remove_split Ho Hne.
  unfold owner_index in *.
  destruct (list_find (String.le h) (l1 ++ x :: l2)) as [[i0 p0]|] eqn:Hf.
  - injection Ho as -> ->.
    apply list_find_app_Some in Hf as [Hf|(Hlen & Hf1 & Hf2)].
    + exists i. by rewrite (list_find_app_l _ _ _ _ _ Hf).
    + cbn [list_find] in Hf2. case_decide; [by injection Hf2 as _ ->|].
      destruct (list_find (String.le h) l2) as [[j q]|] eqn:Hf3; [|done].
      cbn in Hf2. injection Hf2 as Hj ->.
      exists (j + length l1)%nat.
      rewrite list_find_app_r, Hf3 by done. split; [done|lia].
  - apply list_find_app_None in Hf as [Hf1 Hf2].
    assert (list_find (String.le h) (l1 ++ l2) = None) as ->.
    { apply list_find_app_None. split; [done|].
      cbn [list_find] in Hf2. case_decide; [done|].
      by destruct (list_find (String.le h) l2). }
    destruct l1 as [|p1 l1]; cbn in Ho |- *.
    + by injection Ho as _ ->.
    + injection Ho as <- <-. by exists 0%nat.
Qed.

Lemma remove_points_keeps_owner X (idxs : list Z) r r' (h : string)
    (i : nat) (p : string) (n : Node) :
  remove_points str X idxs r = Returned r' →
  p ∉ replica_key str X <$> idxs →
  owner_index h (_sorted_keys r) = Some (i, p) →
  ring r !! p = Some n →
  ∃ i', owner_index h (_sorted_keys r') = Some (i', p) ∧ (i' ≤ i)%nat ∧
        ring r' !! p = Some n.
Proof.
  revert r i. induction idxs as [|j idxs IH]; intros r i Hrm Hp Ho Hn.
  - injection Hrm as <-. by exists i.
  - cbn [remove_points] in Hrm. rewrite fmap_cons, not_elem_of_cons in Hp.
    destruct Hp as [Hpj Hp].
    destruct (ring r !! replica_key str X j); [|done].
    cbn [_sorted_keys] in Hrm.
    destruct (list_remove _ _) as [l|] eqn:Hl; [|done].
    destruct (owner_index_remove _ _ _ _ _ _ Hl Ho) as (i1 & Ho1 & Hi1); [done|].
    destruct (IH _ i1 Hrm Hp) as (i' & Ho' & Hi' & Hn'); [done| |].
    + cbn. by rewrite lookup_delete_ne.
    + exists i'. split_and!; [done|lia|done].
Qed.

(** X7: removing a node does not move the keys of the others: if the entry
    of [_sorted_keys] that answers a lookup is not a replica point of [X],
    then after a successful [remove_node X] the lookup gives the same node,
    at a position that is not greater. *)
Theorem remove_node_keeps_owner r X r' k (n : Node) (i : nat) (p : string) :
  get_node_pos r k = Ok (Some n, Some i) →
  _sorted_keys r !! i = Some p →
  p ∉ replica_keys str r X →
  remove_node str r X = Returned r' →
  ∃ i', get_node_pos r' k = Ok (Some n, Some i') ∧ (i' ≤ i)%nat ∧
        get_node r' k = Ok (Some n).
Proof.
  intros Hpos Hi Hp Hrm.
  assert (ring r ≠ ∅) as Hne.
  { intros He. by rewrite get_node_pos_empty in Hpos. }
  rewrite get_node_pos_owner in Hpos by done.
  destruct (owner_index _ _) as [[i0 p0]|] eqn:Ho; [|done].
  destruct (ring r !! p0) as [n0|] eqn:Hp0; [|done].
  injection Hpos as -> ->.
  pose proof (owner_index_lookup _ _ _ _ Ho) as Hi'.
  assert (p0 = p) as -> by congruence.
  destruct (remove_points_keeps_owner _ _ _ _ _ _ _ _ Hrm Hp Ho Hp0)
    as (i' & Ho' & Hle & Hn').
  assert (get_node_pos r' k = Ok (Some n, Some i')) as Hpos'.
  { rewrite get_node_pos_owner.
    - by rewrite Ho', Hn'.
    - intros He. by rewrite He, lookup_empty in Hn'. }
  exists i'. split_and!; [done..|]. unfold get_node. by rewrite Hpos'.
Qed.

Lemma remove_points_returned X (idxs : list Z) r r' :
  remove_points str X idxs r = Returned r' →
  NoDup (replica_key str X <$> idxs) ∧
  (∀ q, q ∈ replica_key str X <$> idxs →
        is_Some (ring r !! q) ∧ q ∈ _sorted_keys r) ∧
  (∀ q, ring r' !! q
        = if decide (q ∈ replica_key str X <$> idxs) then None else ring r !! q) ∧
  _sorted_keys r ≡ₚ (replica_key str X <$> idxs) ++ _sorted_keys r'.
Proof.
  revert r. induction idxs as [|j idxs IH]; intros r Hrm.
  - injection Hrm as <-. split_and!; [constructor| |done..].
    by intros q ?%elem_of_nil.
  - cbn [remove_points] in Hrm.
    destruct (ring r !! replica_key str X j) as [v|] eqn:Hj; [|done].
    cbn [_sorted_keys] in Hrm.
    destruct (list_remove _ _) as [l|] eqn:Hl; [|done].
    pose proof (list_remove_Permutation _ _ _ Hl) as Hperm.
    destruct (IH _ Hrm) as (Hnd & Hin & Hlk & Hp). cbn in Hin, Hlk, Hp.
    rewrite fmap_cons. split_and!.
    + apply NoDup_cons. split; [|done]. intros Hjin.
      destruct (Hin _ Hjin) as [Hs _]. rewrite lookup_delete_eq in Hs.
      by apply is_Some_None in Hs.
    + intros q [->|Hq]%elem_of_cons.
      * split; [by eauto|]. rewrite Hperm. by left.
      * destruct (Hin q Hq) as [[_ Hs]%lookup_delete_is_Some Hql].
        split; [done|]. rewrite Hperm. by right.
    + intros q. rewrite Hlk.
      destruct (decide (q ∈ replica_key str X <$> idxs)) as [Hq|Hq].
      { rewrite decide_True; [done|]. by right. }
      destruct (decide (q = replica_key str X j)) as [->|Hne].
      { rewrite decide_True by left. apply lookup_delete_eq. }
      rewrite decide_False by (rewrite not_elem_of_cons; done).
      by apply lookup_delete_ne.
    + by rewrite Hperm, Hp.
Qed.

(** X8: [remove_node X] returns normally only if the replica points of [X]
    are pairwise distinct and each is both a key of [ring] and an entry of
    [_sorted_keys]; it then deletes exactly these keys from [ring] and one
    occurrence of each from [_sorted_keys]. *)
Theorem remove_node_returned r X r' :
  remove_node str r X = Returned r' →
  NoDup (replica_keys str r X) ∧
  (∀ q, q ∈ replica_keys str r X → is_Some (ring r !! q) ∧ q ∈ _sorted_keys r) ∧
  (∀ q, ring r' !! q = if decide (q ∈ replica_keys str r X) then None else ring r !! q) ∧
  _sorted_keys r ≡ₚ replica_keys str r X ++ _sorted_keys r'.
Proof. apply remove_points_returned. Qed.



(** X10: after a successful [remove_node X] on a ring reached by successful
    operations, no lookup answers [X]. *)
Theorem removed_node_not_returned r X r' k :
  reachable str r →
  remove_node str r X = Returned r' →
  get_node r' k ≠ Ok (Some X).
Proof.
  intros (Hown & _ & _)%reachable_inv Hrm (_ & i & p & _ & Hp)%get_node_Some.
  apply remove_points_returned in Hrm as (_ & _ & Hlk & _).
  fold (replica_keys str r X) in Hlk.
  rewrite Hlk in Hp. case_decide as Hin; [done|].
  by apply Hin, Hown.
Qed.

(** *** Adding a node *)

Lemma HashRing_eq r1 r2 :
  replicas r1 = replicas r2 → ring r1 = ring r2 →
  _sorted_keys r1 = _sorted_keys r2 → r1 = r2.
Proof. destruct r1, r2. cbn. by intros -> -> ->. Qed.

Lemma StronglySorted_lookup_le (l : list string) (i j : nat) (x y : string) :
  StronglySorted String.le l → (i ≤ j)%nat →
  l !! i = Some x → l !! j = Some y → String.le x y.
Proof.
  intros Hs. revert i j. induction Hs as [|z l Hs IH Hz]; intros i j Hij Hi Hj.
  - by rewrite lookup_nil in Hi.
  - destruct i as [|i], j as [|j]; cbn in Hi, Hj; [| |lia|].
    + by simplify_eq.
    + injection Hi as ->. rewrite Forall_forall in Hz.
      by eapply Hz, list_elem_of_lookup_2.
    + eapply (IH i j); [lia|done..].
Qed.

(** In an ascending list the selected entry is the least entry at or after
    [h], or the least entry of all when none is at or after [h]. *)
Lemma owner_index_least (h : string) (l : list string) (i : nat) (p : string) :
  StronglySorted String.le l →
  owner_index h l = Some (i, p) →
  p ∈ l ∧
  ((String.le h p ∧ ∀ q, q ∈ l → String.le h q → String.le p q) ∨
   ((∀ q, q ∈ l → ¬ String.le h q) ∧ ∀ q, q ∈ l → String.le p q)).
Proof.
  intros Hs Ho. split.
  { eapply list_elem_of_lookup_2, owner_index_lookup, Ho. }
  unfold owner_index in Ho.
  destruct (list_find (String.le h) l) as [ip|] eqn:Hf.
  - injection Ho as ->. apply list_find_Some in Hf as (Hi & Hle & Hmin).
    left. split; [done|]. intros q [j Hj]%list_elem_of_lookup_1 Hq.
    destruct (decide (j < i)%nat) as [Hlt|Hge].
    + by destruct (Hmin j q).
    + eapply (StronglySorted_lookup_le l i j); [done|lia|done..].
  - apply list_find_None in Hf. rewrite Forall_forall in Hf.
    destruct l as [|p0 l]; [done|]. injection Ho as <- <-.
    right. split; [done|]. apply StronglySorted_cons in Hs as [Hall _].
    rewrite Forall_forall in Hall.
    intros q [->|Hq]%elem_of_cons; [done|]. by apply Hall.
Qed.

Lemma owner_index_sub (h : string) (l l' : list string) (i i' : nat) (p p' : string) :
  StronglySorted String.le l → StronglySorted String.le l' →
  (∀ q, q ∈ l → q ∈ l') →
  owner_index h l = Some (i, p) → owner_index h l' = Some (i', p') →
  p' ∈ l → p' = p.
Proof.
  intros Hs Hs' Hsub Ho Ho' Hp'.
  destruct (owner_index_least _ _ _ _ Hs Ho) as [Hp [[Hle Hmin]|[Hnone Hmin]]];
  destruct (owner_index_least _ _ _ _ Hs' Ho') as [_ [[Hle' Hmin']|[Hnone' Hmin']]].
  - apply (anti_symm String.le); [|by apply Hmin].
    apply Hmin'; [by apply Hsub|done].
  - by destruct (Hnone' p (Hsub p Hp)).
  - by destruct (Hnone p').
  - apply (anti_symm String.le); [|by apply Hmin].
    by apply Hmin', Hsub.
Qed.

Lemma add_node_owner r X k (n : Node) (i : nat) (p : string) :
  Sorted String.le (_sorted_keys r) →
  owner_index (gen_key k) (_sorted_keys r) = Some (i, p) →
  ∃ i' p', owner_index (gen_key k) (_sorted_keys (add_node str r X)) = Some (i', p') ∧
           (p' ∈ replica_keys str r X ∨ p' = p).
Proof.
  intros Hs Ho.
  assert (∀ q, q ∈ _sorted_keys r → q ∈ _sorted_keys (add_node str r X)) as Hsub.
  { intros q Hq. rewrite add_node_keys_Permutation, elem_of_app. by left. }
  destruct (owner_index (gen_key k) (_sorted_keys (add_node str r X)))
    as [[i' p']|] eqn:Ho'.
  - exists i', p'. split; [done|].
    assert (p' ∈ _sorted_keys (add_node str r X)) as Hp'.
    { eapply list_elem_of_lookup_2, owner_index_lookup, Ho'. }
    rewrite add_node_keys_Permutation, elem_of_app in Hp'.
    destruct Hp' as [Hp'|Hp']; [|by left]. right.
    eapply (owner_index_sub _ (_sorted_keys r)); [| |done..].
    + by apply Sorted_StronglySorted; [apply _|].
    + apply Sorted_StronglySorted; [apply _|]. apply add_node_keys_Sorted.
  - apply owner_index_None in Ho'.
    assert (p ∈ _sorted_keys (add_node str r X)) as Hp.
    { eapply Hsub, list_elem_of_lookup_2, owner_index_lookup, Ho. }
    rewrite Ho' in Hp. by apply elem_of_nil in Hp.
Qed.

(** X11: adding a node moves keys to the new node only: a lookup that
    answered [n] before [add_node X] answers [n] or [X] after it. *)
Theorem add_node_moves_to_new r X k (n : Node) :
  Sorted String.le (_sorted_keys r) →
  get_node r k = Ok (Some n) →
  get_node (add_node str r X) k = Ok (Some n) ∨
  get_node (add_node str r X) k = Ok (Some X).
Proof.
  intros Hs (Hne & i & p & Ho & Hp)%get_node_Some.
  destruct (add_node_owner r X k n i p Hs Ho) as (i' & p' & Ho' & Hcase).
  assert (ring (add_node str r X) ≠ ∅) as Hne'.
  { intros He. pose proof (add_node_lookup str r X p) as Hl.
    rewrite He, lookup_empty, Hp in Hl. by case_decide. }
  unfold get_node. rewrite get_node_pos_owner, Ho', add_node_lookup by done.
  case_decide as Hin; [by right|].
  destruct Hcase as [?| ->]; [done|]. rewrite Hp. by left.
Qed.

(** X12: adding once more a node whose replica points are all in the ring,
    mapped to it, changes the answer of no lookup, error included. *)
Theorem add_node_again_same_lookup r X k :
  Sorted String.le (_sorted_keys r) →
  (∀ q, q ∈ replica_keys str r X → ring r !! q = Some X ∧ q ∈ _sorted_keys r) →
  get_node (add_node str r X) k = get_node r k.
Proof.
  intros Hs Hpresent.
  assert (ring (add_node str r X) = ring r) as Hring.
  { apply map_eq. intros q. rewrite add_node_lookup.
    case_decide as Hq; [|done]. by destruct (Hpresent q Hq) as [-> _]. }
  destruct (decide (ring r = ∅)) as [He|Hne].
  { unfold get_node. by rewrite !get_node_pos_empty by (by rewrite ?Hring). }
  unfold get_node. rewrite !get_node_pos_owner, Hring by (by rewrite ?Hring).
  destruct (owner_index (gen_key k) (_sorted_keys r)) as [[i p]|] eqn:Ho.
  - destruct (add_node_owner r X k X i p Hs Ho) as (i' & p' & Ho' & Hcase).
    assert (p' = p) as ->.
    { destruct Hcase as [Hin|]; [|done].
      destruct (Hpresent p' Hin) as [_ Hl].
      eapply (owner_index_sub _ (_sorted_keys r) (_sorted_keys (add_node str r X)));
        [| | |done..].
      - by apply Sorted_StronglySorted; [apply _|].
      - apply Sorted_StronglySorted; [apply _|]. apply add_node_keys_Sorted.
      - intros q Hq. rewrite add_node_keys_Permutation, elem_of_app. by left. }
    rewrite Ho'. by destruct (ring r !! p).
  - apply owner_index_None in Ho.
    assert (replica_keys str r X = []) as Hkeys.
    { destruct (replica_keys str r X) as [|q l] eqn:Hk; [done|].
      destruct (Hpresent q) as [_ Hq]; [by left|].
      rewrite Ho in Hq. by apply elem_of_nil in Hq. }
    assert (_sorted_keys (add_node str r X) = []) as ->; [|done].
    apply Permutation_nil. by rewrite add_node_keys_Permutation, Ho, Hkeys.
Qed.

(** *** How the operations compose *)

(** X13: on a ring in sync, adding a node whose replica points are fresh and
    removing it again gives back the very same ring. *)
Theorem add_remove_round_trip r X :
  keys_in_sync r → fresh str r X →
  remove_node str (add_node str r X) X = Returned r.
Proof.
  intros Hsync Hfresh.
  pose proof (keys_in_sync_add str r X Hsync Hfresh) as Hsync1.
  destruct Hfresh as [Hnd Hnew].
  destruct (remove_points_present str X (range0 (replicas r)) (add_node str r X))
    as (r' & Hrm & Hrep & Hlk & Hperm); [done| |].
  { intros q Hq. split.
    - rewrite add_node_lookup, decide_True by done. eauto.
    - rewrite add_node_keys_Permutation, elem_of_app. by right. }
  unfold remove_node. rewrite add_node_replicas, Hrm. f_equal.
  pose proof (keys_in_sync_remove_points str _ _ _ _ Hsync1 Hrm) as (Hs' & _ & _).
  destruct Hsync as (Hs & _ & _).
  apply HashRing_eq.
  - by rewrite Hrep, add_node_replicas.
  - apply map_eq. intros q. rewrite Hlk, add_node_lookup.
    fold (replica_keys str r X).
    case_decide as Hq; [|done]. symmetry. by apply Hnew.
  - apply (Sorted_unique String.le); [done..|].
    rewrite add_node_keys_Permutation in Hperm.
    apply (Permutation_app_inv_l (replica_key str X <$> range0 (replicas r))).
    rewrite <-Hperm. apply Permutation_app_comm.
Qed.

(** X14: two nodes whose replica points do not collide can be added in either
    order: the resulting rings are equal. *)
Theorem add_node_comm r X Y :
  (∀ q, q ∈ replica_keys str r X → q ∉ replica_keys str r Y) →
  add_node str (add_node str r X) Y = add_node str (add_node str r Y) X.
Proof.
  intros Hdisj. apply HashRing_eq.
  - by rewrite !add_node_replicas.
  - apply map_eq. intros q. rewrite !add_node_lookup, !replica_keys_add_node.
    repeat case_decide; try done. by destruct (Hdisj q).
  - apply (Sorted_unique String.le); [apply add_node_keys_Sorted..|].
    rewrite !add_node_keys_Permutation, !replica_keys_add_node.
    rewrite <-!app_assoc. f_equiv. apply Permutation_app_comm.
Qed.

(** *** The items of [get_nodes] *)

Lemma nth_item_ext (fuel j : nat) r k (c1 c2 : cursor) :
  next fuel r k c1 = next fuel r k c2 →
  nth_item fuel j r k c1 = nth_item fuel j r k c2.
Proof. intros Hn. destruct j; cbn [nth_item]; by rewrite Hn. Qed.

Lemma next_at r k (p : nat) (c : cursor) (q : string) (v : Node) :
  cursor_at r p c →
  _sorted_keys r !! p = Some q → ring r !! q = Some v →
  ∃ c', cursor_at r (S p) c' ∧
        ∀ fuel, next (S fuel) r k c = Some (Yield (Owner v) c').
Proof.
  intros [-> | ->] Hq Hv.
  - exists (InSlice (drop (S p) (_sorted_keys r))). split; [by left|].
    intros fuel. rewrite (drop_S _ _ _ Hq). cbn [next get_nodes_step].
    unfold getitem. by rewrite Hv.
  - exists (InCycle (S p)). split; [by right|].
    intros fuel. cbn [next get_nodes_step]. rewrite Hq. unfold getitem.
    by rewrite Hv.
Qed.

Lemma next_at_end r k (c : cursor) (fuel : nat) :
  cursor_at r (length (_sorted_keys r)) c →
  next (S fuel) r k c = next fuel r k (InCycle 0).
Proof.
  intros [-> | ->].
  - by rewrite drop_all.
  - cbn [next get_nodes_step]. by rewrite lookup_ge_None_2.
Qed.

Lemma nth_item_wrap r k (j : nat) (c : cursor) :
  no_dangling r → (0 < length (_sorted_keys r))%nat →
  cursor_at r (length (_sorted_keys r)) c →
  nth_item 4 j r k c = nth_item 4 j r k (InCycle 0).
Proof.
  intros Hnd Hlen Hc. apply nth_item_ext.
  destruct (lookup_lt_is_Some_2 (_sorted_keys r) 0 Hlen) as [q Hq].
  destruct (Hnd q) as [v Hv]; [by eapply list_elem_of_lookup_2|].
  destruct (next_at r k 0 (InCycle 0) q v) as (c' & _ & Hn); [by right|done..|].
  by rewrite (next_at_end r k c 3 Hc), !Hn.
Qed.

Lemma nth_item_at r k (j p : nat) (c : cursor) :
  no_dangling r →
  (p < length (_sorted_keys r))%nat →
  cursor_at r p c →
  ∃ q v, _sorted_keys r !! ((p + j) mod length (_sorted_keys r))%nat = Some q ∧
         ring r !! q = Some v ∧
         nth_item 4 j r k c = Some (Owner v).
Proof.
  intros Hnd. set (len := length (_sorted_keys r)).
  revert p c. induction j as [|j IH]; intros p c Hp Hc;
    destruct (lookup_lt_is_Some_2 (_sorted_keys r) p Hp) as [q Hq];
    (destruct (Hnd q) as [v Hv]; [by eapply list_elem_of_lookup_2|]);
    destruct (next_at r k p c q v Hc Hq Hv) as (c' & Hc' & Hn).
  - exists q, v. rewrite Nat.add_0_r, Nat.mod_small by done.
    split_and!; [done..|]. cbn [nth_item]. by rewrite Hn.
  - cbn [nth_item]. rewrite Hn.
    destruct (decide (S p = len)) as [Hend|Hne].
    + destruct (IH 0%nat (InCycle 0)) as (q' & v' & Hq' & Hv' & Hitem);
        [lia|by right|].
      exists q', v'. split_and!; [|done|].
      * replace (p + S j)%nat with (j + 1 * len)%nat by lia.
        by rewrite Nat.Div0.mod_add.
      * rewrite <-Hitem. apply nth_item_wrap; [done|lia|]. by rewrite Hend in Hc'.
    + destruct (IH (S p) c') as (q' & v' & Hq' & Hv' & Hitem); [lia|done|].
      exists q', v'. split_and!; [|done..].
      by replace (p + S j)%nat with (S p + j)%nat by lia.
Qed.

(** X15: on a ring all of whose [_sorted_keys] entries are keys of [ring],
    where the lookup of the key answers [(n, pos)], [get_nodes] never ends
    and never raises: its item of index [j] is the node of the entry of
    index [(pos + j) mod len] of [_sorted_keys]; the first is [n]. *)
Theorem get_nodes_nth r k (n : Node) (pos j : nat) :
  no_dangling r →
  get_node_pos r k = Ok (Some n, Some pos) →
  nth_item 4 0 r k AtStart = Some (Owner n) ∧
  ∃ q v, _sorted_keys r !! ((pos + j) mod length (_sorted_keys r))%nat = Some q ∧
         ring r !! q = Some v ∧
         nth_item 4 j r k AtStart = Some (Owner v).
Proof.
  intros Hnd Hpos.
  pose proof Hpos as (Hne & p & Hp%owner_index_lookup & Hn)%get_node_pos_Some.
  pose proof (lookup_lt_Some _ _ _ Hp) as Hlt.
  assert (∀ j, nth_item 4 j r k AtStart
               = nth_item 4 j r k (InSlice (drop pos (_sorted_keys r)))) as Hstart.
  { intros j'. apply nth_item_ext.
    destruct (next_at r k pos (InSlice (drop pos (_sorted_keys r))) p n)
      as (c' & _ & Hnext); [by left|done..|].
    rewrite Hnext. cbn [next get_nodes_step].
    rewrite decide_False by done. cbn [next get_nodes_step].
    rewrite Hpos. cbn [slice_from]. exact (Hnext 1%nat). }
  rewrite !Hstart. split.
  - destruct (nth_item_at r k 0 pos (InSlice (drop pos (_sorted_keys r))))
      as (q & v & Hq & Hv & Hitem); [done..|by left|].
    rewrite Nat.add_0_r, Nat.mod_small in Hq by done.
    rewrite Hitem. congruence.
  - apply nth_item_at; [done..|by left].
Qed.


(** *** The text of a key *)

Lemma hex_digit_elem_of (x : Z) :
  0 ≤ x < 16 →
  MD5.hex_digit x ∈ String.list_ascii_of_string "0123456789abcdef".
Proof.
  intros Hx.
  assert (Forall (λ y, MD5.hex_digit y
                       ∈ String.list_ascii_of_string "0123456789abcdef")
            (seqZ 0 16)) as Hall.
  { apply (bool_decide_eq_true_1 _). vm_compute. reflexivity. }
  rewrite Forall_forall in Hall. apply Hall, elem_of_seqZ. lia.
Qed.

Lemma hex_of_bytes_chars (bs : list Z) :
  Forall is_byte bs →
  Forall (λ c, c ∈ String.list_ascii_of_string "0123456789abcdef")
    (String.list_ascii_of_string (MD5.hex_of_bytes bs)).
Proof.
  set (digits := String.list_ascii_of_string "0123456789abcdef").
  induction 1 as [|b bs Hb _ IH]; [constructor|].
  unfold is_byte in Hb. cbn [MD5.hex_of_bytes String.list_ascii_of_string].
  apply Forall_cons. split; [|apply Forall_cons; split; [|done]];
    apply hex_digit_elem_of.
  - rewrite Z.shiftr_div_pow2 by lia. change (2 ^ 4) with 16.
    split; [apply Z.div_pos|apply Z.div_lt_upper_bound]; lia.
  - replace 0xf with (Z.ones 4) by done. rewrite Z.land_ones by lia.
    apply Z.mod_pos_bound. lia.
Qed.

(** X16: every character of a key returned by [gen_key] is one of
    [0123456789abcdef]. *)
Theorem gen_key_chars (key : string) :
  Forall (λ c, c ∈ String.list_ascii_of_string "0123456789abcdef")
    (String.list_ascii_of_string (gen_key key)).
Proof. apply hex_of_bytes_chars, digest_is_byte. Qed.

(** X17: two keys are stored at the same point exactly when their digests are
    the same 128-bit number, and the order in which [get_node_pos] compares
    points is the order of these numbers. *)
Theorem gen_key_numeric (k1 k2 : string) :
  (String.le (gen_key k1) (gen_key k2) ↔ digest_value k1 ≤ digest_value k2) ∧
  (gen_key k1 = gen_key k2 ↔ digest_value k1 = digest_value k2).
Proof.
  pose proof gen_key_le_digest_value as Hle.
  split; [done|]. split.
  - intros Heq. apply Z.le_antisymm; apply Hle; by rewrite Heq.
  - intros Heq. apply (anti_symm String.le); apply Hle; lia.
Qed.

(** *** Tests that compute, for concrete rings *)

Lemma no_dangling_check r :
  forallb (λ q, bool_decide (is_Some (ring r !! q))) (_sorted_keys r) = true →
  no_dangling r.
Proof.
  intros Hall q Hq. rewrite forallb_forall in Hall.
  apply list_elem_of_In, Hall in Hq. by apply bool_decide_eq_true in Hq.
Qed.

Lemma present_check r X :
  forallb (λ q, bool_decide (ring r !! q = Some X ∧ q ∈ _sorted_keys r))
    (replica_keys str r X) = true →
  ∀ q, q ∈ replica_keys str r X → ring r !! q = Some X ∧ q ∈ _sorted_keys r.
Proof.
  intros Hall q Hq. rewrite forallb_forall in Hall.
  apply list_elem_of_In, Hall in Hq. by apply bool_decide_eq_true in Hq.
Qed.

Lemma disjoint_check r X Y :
  forallb (λ q, bool_decide (q ∉ replica_keys str r Y)) (replica_keys str r X) = true →
  ∀ q, q ∈ replica_keys str r X → q ∉ replica_keys str r Y.
Proof.
  intros Hall q Hq. rewrite forallb_forall in Hall.
  apply list_elem_of_In, Hall in Hq. by apply bool_decide_eq_true in Hq.
Qed.


End Further.

(** ** Witnesses of the further properties *)

Lemma reachable_ring_AB_dangling : reachable id ring_AB_dangling.
Proof.
  apply (reach_remove id (add_node id ring_AB "A") "A").
  - apply reach_add, reach_init.
  - apply returned_state_of. vm_compute. reflexivity.
Qed.

Lemma keys_in_sync_ring_A : keys_in_sync ring_A.
Proof.
  apply (keys_in_sync_add id ring_empty "A").
  - apply keys_in_sync_init.
  - apply fresh_check; vm_compute; reflexivity.
Qed.

Lemma keys_in_sync_ring_AB : keys_in_sync ring_AB.
Proof.
  apply (keys_in_sync_add id ring_A "B").
  - apply keys_in_sync_ring_A.
  - apply fresh_check; vm_compute; reflexivity.
Qed.

Lemma get_node_pos_inv_witness :
  ((Some "B", Some 4%nat) = (None, None) ∧ ring ring_AB = ∅) ∨
  ∃ n i p,
    (Some "B", Some 4%nat) = (Some n, Some i) ∧ ring ring_AB ≠ ∅ ∧
    _sorted_keys ring_AB !! i = Some p ∧ ring ring_AB !! p = Some n ∧
    (first_at_or_after (gen_key "hello") (_sorted_keys ring_AB) i p ∨
     (i = 0%nat ∧ ∀ q, q ∈ _sorted_keys ring_AB → strict String.le q (gen_key "hello"))).
Proof.
  apply (get_node_pos_inv ring_AB "hello" (Some "B", Some 4%nat)).
  vm_compute. reflexivity.
Defined.

Lemma reachable_ring_inv_witness :
  owner_consistent id ring_AB_dangling ∧ covered ring_AB_dangling ∧
  Sorted String.le (_sorted_keys ring_AB_dangling).
Proof.
  apply (reachable_ring_inv id ring_AB_dangling).
  apply reachable_ring_AB_dangling.
Defined.

Lemma remove_node_keeps_owner_witness :
  ∃ i', get_node_pos (state_of (remove_node id ring_AB "A")) "hello"
        = Ok (Some "B", Some i') ∧ (i' ≤ 4)%nat ∧
        get_node (state_of (remove_node id ring_AB "A")) "hello" = Ok (Some "B").
Proof.
  apply (remove_node_keeps_owner id ring_AB "A" _ "hello" "B" 4%nat
           "b30be997c4a04c0809c25db6d0a0d3dc").
  - vm_compute. reflexivity.
  - vm_compute. reflexivity.
  - apply (bool_decide_eq_true_1 _). vm_compute. reflexivity.
  - apply returned_state_of. vm_compute. reflexivity.
Defined.

Lemma remove_node_returned_witness :
  NoDup (replica_keys id ring_AB "A") ∧
  (∀ q, q ∈ replica_keys id ring_AB "A" →
        is_Some (ring ring_AB !! q) ∧ q ∈ _sorted_keys ring_AB) ∧
  (∀ q, ring (state_of (remove_node id ring_AB "A")) !! q
        = if decide (q ∈ replica_keys id ring_AB "A") then None
          else ring ring_AB !! q) ∧
  _sorted_keys ring_AB
  ≡ₚ replica_keys id ring_AB "A" ++ _sorted_keys (state_of (remove_node id ring_AB "A")).
Proof.
  apply (remove_node_returned id ring_AB "A").
  apply returned_state_of. vm_compute. reflexivity.
Defined.


Lemma removed_node_not_returned_witness :
  get_node (state_of (remove_node id ring_AB "A")) "hello" ≠ Ok (Some "A").
Proof.
  apply (removed_node_not_returned id ring_AB "A").
  - apply reach_init.
  - apply returned_state_of. vm_compute. reflexivity.
Defined.

Lemma add_node_moves_to_new_witness :
  get_node (add_node id ring_A "B") "hello" = Ok (Some "A") ∨
  get_node (add_node id ring_A "B") "hello" = Ok (Some "B").
Proof.
  apply (add_node_moves_to_new id ring_A "B" "hello" "A").
  - apply keys_in_sync_ring_A.
  - vm_compute. reflexivity.
Defined.

Lemma add_node_again_same_lookup_witness :
  get_node (add_node id ring_AB "A") "hello" = get_node ring_AB "hello".
Proof.
  apply (add_node_again_same_lookup id ring_AB "A" "hello").
  - apply keys_in_sync_ring_AB.
  - apply present_check. vm_compute. reflexivity.
Defined.

Lemma add_remove_round_trip_witness :
  remove_node id (add_node id ring_A "B") "B" = Returned ring_A.
Proof.
  apply (add_remove_round_trip id ring_A "B").
  - apply keys_in_sync_ring_A.
  - apply fresh_check; vm_compute; reflexivity.
Defined.

Lemma add_node_comm_witness :
  add_node id (add_node id ring_empty "A") "B"
  = add_node id (add_node id ring_empty "B") "A".
Proof.
  apply (add_node_comm id ring_empty "A" "B").
  apply disjoint_check. vm_compute. reflexivity.
Defined.

Lemma get_nodes_nth_witness :
  nth_item 4 0 ring_AB "hello" AtStart = Some (Owner "B") ∧
  ∃ q v, _sorted_keys ring_AB !! ((4 + 5) mod length (_sorted_keys ring_AB))%nat = Some q ∧
         ring ring_AB !! q = Some v ∧
         nth_item 4 5 ring_AB "hello" AtStart = Some (Owner v).
Proof.
  apply (get_nodes_nth ring_AB "hello" "B" 4 5).
  - apply no_dangling_check. vm_compute. reflexivity.
  - vm_compute. reflexivity.
Defined.


(** [test.py]: the server found for ['123456789'] is ['5'], a key of
    [weights]. *)
Example test_script_server :
  get_node test_ring "123456789" = Ok (Some "5") ∧ is_Some (weights !! "5").
Proof. split; vm_compute; eauto. Qed.

(** ** Lookups on Python strings *)

Example encode_utf8_hello : encode_utf8 [104; 101; 108; 108; 111] = Ok "hello".
Proof. reflexivity. Qed.

(** ['aé€\U0001F600'.encode('utf8')], hashed. *)
Example gen_key_str_non_ascii :
  MD5.bytes_of_string (string_of_bytes ([97; 0xE9; 0x20AC; 0x1F600] ≫= utf8_bytes))
  = [97; 195; 169; 226; 130; 172; 240; 159; 152; 128] ∧
  gen_key_str [97; 0xE9; 0x20AC; 0x1F600] = Ok "46ba30e027faf1efae749d8202717200".
Proof. split; vm_compute; reflexivity. Qed.

Example encode_utf8_surrogate :
  encode_utf8 [0xD800] = Err UnicodeEncodeError ∧
  encode_utf8 [97; 0xDFFF; 98] = Err UnicodeEncodeError.
Proof. split; reflexivity. Qed.

Section OnPythonStrings.

Context {Node : Type} `{EqDecision Node}.
Variable str : Node → string.

Implicit Types (r : @HashRing Node) (X : Node) (k : pystr).

Lemma encode_utf8_surrogate_iff k :
  has_surrogate k = true ↔ encode_utf8 k = Err UnicodeEncodeError.
Proof. unfold encode_utf8. by destruct (has_surrogate k). Qed.

Lemma encode_utf8_Err k (e : exn) :
  encode_utf8 k = Err e → e = UnicodeEncodeError ∧ has_surrogate k = true.
Proof. unfold encode_utf8. destruct (has_surrogate k); [|done]. by intros [= <-]. Qed.

Lemma encode_utf8_Ok k :
  has_surrogate k = false → ∃ key, encode_utf8 k = Ok key.
Proof. unfold encode_utf8. intros ->. eauto. Qed.

Lemma gen_key_str_Ok k (h : string) :
  gen_key_str k = Ok h → ∃ key, encode_utf8 k = Ok key ∧ h = gen_key key.
Proof.
  unfold gen_key_str. destruct (encode_utf8 k) as [key|]; [|done].
  intros [= <-]. eauto.
Qed.

(** On a key that encodes, the methods on a Python [str] are the methods on
    its bytes. *)
Lemma get_node_pos_str_encode r k (key : string) :
  encode_utf8 k = Ok key → get_node_pos_str r k = get_node_pos r key.
Proof.
  intros Henc. unfold get_node_pos_str, get_node_pos, gen_key_str.
  by rewrite Henc.
Qed.

Lemma get_node_str_encode r k (key : string) :
  encode_utf8 k = Ok key → get_node_str r k = get_node r key.
Proof.
  intros Henc. unfold get_node_str, get_node.
  by rewrite (get_node_pos_str_encode r k key).
Qed.

(** On a ring without points the key is not hashed: no key raises. *)
Lemma get_node_pos_str_empty r k :
  ring r = ∅ → get_node_pos_str r k = Ok (None, None) ∧ get_node_str r k = Ok None.
Proof.
  intros Hr. unfold get_node_str, get_node_pos_str. by rewrite decide_True.
Qed.

Lemma get_node_pos_str_surrogate r k :
  ring r ≠ ∅ → has_surrogate k = true →
  get_node_pos_str r k = Err UnicodeEncodeError.
Proof.
  intros Hne Hs%encode_utf8_surrogate_iff.
  unfold get_node_pos_str, gen_key_str. rewrite decide_False by done.
  by rewrite Hs.
Qed.

Lemma owner_index_first (h : string) (l : list string) (i : nat) (p : string) :
  first_at_or_after h l i p → owner_index h l = Some (i, p).
Proof.
  intros (Hi & Hle & Hmin). unfold owner_index.
  rewrite (proj2 (list_find_Some (String.le h) l i p)); [done|].
  split_and!; [done..|]. intros j q Hq Hj. by apply (Hmin j q).
Qed.

Lemma owner_index_wrap (h : string) (l : list string) (p0 : string) :
  (∀ q, q ∈ l → strict String.le q h) → l !! 0%nat = Some p0 →
  owner_index h l = Some (0%nat, p0).
Proof.
  intros Hall H0. unfold owner_index.
  rewrite (proj2 (list_find_None (String.le h) l)).
  - destruct l as [|p l]; [done|]. by injection H0 as ->.
  - apply Forall_forall. intros q Hq. by destruct (Hall q Hq).
Qed.

(** C1 (amended): on a ring with points, [get_node_pos] on a key with a
    surrogate raises [UnicodeEncodeError]; on any other key, with [h] its
    hash and [p] the first entry of [_sorted_keys], at index [i], such that
    [h <= p], it returns [(ring[p], i)] when [p] is a key of [ring] and
    raises [KeyError p] when it is not; when [h] is greater than every
    entry the same holds of entry 0: ownership wraps to the first point. *)
Theorem get_node_pos_str_clockwise r k :
  ring r ≠ ∅ →
  (has_surrogate k = true → get_node_pos_str r k = Err UnicodeEncodeError) ∧
  (∀ h, gen_key_str k = Ok h →
     (∀ i p, first_at_or_after h (_sorted_keys r) i p →
        (∀ n, ring r !! p = Some n →
              get_node_pos_str r k = Ok (Some n, Some i)) ∧
        (ring r !! p = None → get_node_pos_str r k = Err (KeyError p))) ∧
     (∀ p0, (∀ q, q ∈ _sorted_keys r → strict String.le q h) →
            _sorted_keys r !! 0%nat = Some p0 →
        (∀ n, ring r !! p0 = Some n →
              get_node_pos_str r k = Ok (Some n, Some 0%nat)) ∧
        (ring r !! p0 = None → get_node_pos_str r k = Err (KeyError p0)))).
Proof.
  intros Hne. split; [by apply get_node_pos_str_surrogate|].
  intros h (key & Henc & ->)%gen_key_str_Ok.
  rewrite (get_node_pos_str_encode r k key Henc), get_node_pos_owner by done.
  split.
  - intros i p Hfirst%owner_index_first. rewrite Hfirst.
    split; [intros n Hp|intros Hp]; by rewrite Hp.
  - intros p0 Hall H0. rewrite (owner_index_wrap _ _ p0 Hall H0).
    split; [intros n Hp|intros Hp]; by rewrite Hp.
Qed.

(** X2: if [get_node_pos] raises, the ring has points and the error is
    [UnicodeEncodeError], on a key with a surrogate, or [IndexError], with
    [_sorted_keys] empty, or [KeyError] on the selected entry of
    [_sorted_keys], which is not a key of [ring]. *)
Theorem get_node_pos_str_error r k (e : exn) :
  get_node_pos_str r k = Err e →
  ring r ≠ ∅ ∧
  ((e = UnicodeEncodeError ∧ has_surrogate k = true) ∨
   (e = IndexError ∧ _sorted_keys r = []) ∨
   ∃ i q, e = KeyError q ∧ _sorted_keys r !! i = Some q ∧ ring r !! q = None).
Proof.
  destruct (encode_utf8 k) as [key|e'] eqn:Henc.
  - rewrite (get_node_pos_str_encode r k key Henc).
    intros [Hne [Hidx|Hkey]]%get_node_pos_error; split; auto.
  - intros Herr.
    assert (ring r ≠ ∅) as Hne.
    { intros He. unfold get_node_pos_str in Herr.
      by rewrite decide_True in Herr. }
    split; [done|]. left.
    apply encode_utf8_Err in Henc as [-> Hs].
    rewrite get_node_pos_str_surrogate in Herr by done.
    by injection Herr as <-.
Qed.

(** X5: on a ring reached by successful operations a lookup never fails
    with [IndexError]: it can only fail with [UnicodeEncodeError], on a key
    with a surrogate, or with [KeyError], on an entry of [_sorted_keys]
    that is not a key of [ring]. *)
Theorem reachable_lookup_str_error r k (e : exn) :
  reachable str r →
  get_node_pos_str r k = Err e →
  (e = UnicodeEncodeError ∧ has_surrogate k = true) ∨
  ∃ i q, e = KeyError q ∧ _sorted_keys r !! i = Some q ∧ ring r !! q = None.
Proof.
  intros Hreach Herr.
  destruct (encode_utf8 k) as [key|e'] eqn:Henc.
  - right. rewrite (get_node_pos_str_encode r k key Henc) in Herr.
    by eapply reachable_lookup_error.
  - left. apply encode_utf8_Err in Henc as [-> Hs]. split; [|done].
    destruct (decide (ring r = ∅)) as [He|Hne].
    + unfold get_node_pos_str in Herr. by rewrite decide_True in Herr.
    + rewrite get_node_pos_str_surrogate in Herr by done.
      by injection Herr as <-.
Qed.

(** X6: a ring constructed from a non-empty list of nodes, with at least one
    replica per node, answers a lookup with one of these nodes, whatever
    the list (repeated nodes, colliding points), unless the key holds a
    surrogate, in which case the lookup raises [UnicodeEncodeError]. *)
Theorem init_lookup_str_member (nodes : list Node) (n : Z) k :
  0 < n → nodes ≠ [] →
  (has_surrogate k = true →
   get_node_str (init str (Some nodes) n) k = Err UnicodeEncodeError) ∧
  (has_surrogate k = false →
   ∃ X, X ∈ nodes ∧ get_node_str (init str (Some nodes) n) k = Ok (Some X)).
Proof.
  intros Hn Hnodes. split.
  - intros Hs. unfold get_node_str.
    rewrite get_node_pos_str_surrogate; [done| |done].
    destruct (init_lookup_member str nodes n "" Hn Hnodes) as (X & _ & Hget).
    intros He. unfold get_node in Hget.
    by rewrite get_node_pos_empty in Hget.
  - intros (key & Henc)%encode_utf8_Ok.
    rewrite (get_node_str_encode _ k key Henc).
    by apply init_lookup_member.
Qed.

End OnPythonStrings.

(** C1 (as stated) fails on a ring with points: after
    [HashRing(['A', 'B'])], [add_node('A')] and [remove_node('A')] the first
    entry at or after the hash of [''] is a point of ['A'] that is no
    longer a key of [ring], and the lookup raises [KeyError]; and on
    [HashRing(['A', 'B'])] the key ['\ud800'] raises [UnicodeEncodeError]. *)
Lemma get_node_pos_str_counterexample :
  reachable id ring_AB_dangling ∧
  ring ring_AB_dangling ≠ ∅ ∧
  gen_key_str [] = Ok "d41d8cd98f00b204e9800998ecf8427e" ∧
  first_at_or_after "d41d8cd98f00b204e9800998ecf8427e"
    (_sorted_keys ring_AB_dangling) 5 "d6b3d7e5131f541ddef681d8acc11713" ∧
  get_node_pos_str ring_AB_dangling []
  = Err (KeyError "d6b3d7e5131f541ddef681d8acc11713") ∧
  ring ring_AB ≠ ∅ ∧
  get_node_pos_str ring_AB [0xD800] = Err UnicodeEncodeError.
Proof.
  split_and!.
  - apply reachable_ring_AB_dangling.
  - apply (bool_decide_eq_false_1 _). vm_compute. reflexivity.
  - vm_compute. reflexivity.
  - split_and!.
    + vm_compute. reflexivity.
    + vm_compute. exact I.
    + intros j q Hj Hq. vm_compute in Hq.
      do 5 (destruct j as [|j]; [injection Hq as <-; vm_compute; tauto|]).
      lia.
  - vm_compute. reflexivity.
  - apply (bool_decide_eq_false_1 _). vm_compute. reflexivity.
  - vm_compute. reflexivity.
Qed.

Lemma get_node_pos_str_clockwise_witness :
  (has_surrogate [104; 101; 108; 108; 111] = true →
   get_node_pos_str ring_AB [104; 101; 108; 108; 111] = Err UnicodeEncodeError) ∧
  (∀ h, gen_key_str [104; 101; 108; 108; 111] = Ok h →
     (∀ i p, first_at_or_after h (_sorted_keys ring_AB) i p →
        (∀ n, ring ring_AB !! p = Some n →
              get_node_pos_str ring_AB [104; 101; 108; 108; 111]
              = Ok (Some n, Some i)) ∧
        (ring ring_AB !! p = None →
         get_node_pos_str ring_AB [104; 101; 108; 108; 111] = Err (KeyError p))) ∧
     (∀ p0, (∀ q, q ∈ _sorted_keys ring_AB → strict String.le q h) →
            _sorted_keys ring_AB !! 0%nat = Some p0 →
        (∀ n, ring ring_AB !! p0 = Some n →
              get_node_pos_str ring_AB [104; 101; 108; 108; 111]
              = Ok (Some n, Some 0%nat)) ∧
        (ring ring_AB !! p0 = None →
         get_node_pos_str ring_AB [104; 101; 108; 108; 111]
         = Err (KeyError p0)))).
Proof.
  apply (get_node_pos_str_clockwise ring_AB [104; 101; 108; 108; 111]).
  apply (bool_decide_eq_false_1 _). vm_compute. reflexivity.
Defined.

Lemma get_node_pos_str_error_witness :
  ring ring_AB_dangling ≠ ∅ ∧
  ((KeyError "d6b3d7e5131f541ddef681d8acc11713" = UnicodeEncodeError
    ∧ has_surrogate [] = true) ∨
   (KeyError "d6b3d7e5131f541ddef681d8acc11713" = IndexError
    ∧ _sorted_keys ring_AB_dangling = []) ∨
   ∃ i q, KeyError "d6b3d7e5131f541ddef681d8acc11713" = KeyError q ∧
          _sorted_keys ring_AB_dangling !! i = Some q ∧
          ring ring_AB_dangling !! q = None).
Proof.
  apply (get_node_pos_str_error ring_AB_dangling []
           (KeyError "d6b3d7e5131f541ddef681d8acc11713")).
  vm_compute. reflexivity.
Defined.

Lemma reachable_lookup_str_error_witness :
  (UnicodeEncodeError = UnicodeEncodeError ∧ has_surrogate [0xD800] = true) ∨
  ∃ i q, UnicodeEncodeError = KeyError q ∧ _sorted_keys ring_AB !! i = Some q ∧
         ring ring_AB !! q = None.
Proof.
  apply (reachable_lookup_str_error id ring_AB [0xD800] UnicodeEncodeError).
  - apply reach_init.
  - vm_compute. reflexivity.
Defined.

Lemma init_lookup_str_member_witness :
  (has_surrogate [49; 50; 51; 52; 53; 54; 55; 56; 57] = true →
   get_node_str test_ring [49; 50; 51; 52; 53; 54; 55; 56; 57]
   = Err UnicodeEncodeError) ∧
  (has_surrogate [49; 50; 51; 52; 53; 54; 55; 56; 57] = false →
   ∃ X, X ∈ memcache_servers ∧
        get_node_str test_ring [49; 50; 51; 52; 53; 54; 55; 56; 57] = Ok (Some X)).
Proof.
  apply (init_lookup_str_member id memcache_servers 3
           [49; 50; 51; 52; 53; 54; 55; 56; 57]).
  - reflexivity.
  - discriminate.
Defined.
